(** * soshell: the packet codec, the DOM directives, the command handlers
      and the read loop of the websocket terminal (main.go, cmd.go).

    Go strings are byte sequences: they are [string] here (a sequence of
    8-bit [ascii]).  A Go function that returns [(value, error)] returns a
    pair whose second component is an [option error] ([None] is Go's nil).
    The socket, the inbound frames and the user store are threaded through
    every call as an explicit [world]. *)

From Stdlib Require Import NArith Ascii String.
From stdpp Require Import base option list sorting strings gmap fin_maps.

(** ** Errors *)

(** Go's [error] values met by the program. *)
Inductive error : Type :=
| EOF                               (* io.EOF: the peer closed the stream *)
| TransportError (msg : string)     (* a failed read or write on the socket *)
| SyntaxError                       (* encoding/json: malformed text *)
| UnmarshalTypeError                (* encoding/json: value of the wrong kind *)
| ErrorString (msg : string).       (* errors.New(msg) *)

(** [e.Error()] *)
Definition Error (e : error) : string :=
  match e with
  | EOF => "EOF"
  | TransportError msg => msg
  | SyntaxError => "invalid character in JSON input"
  | UnmarshalTypeError => "json: cannot unmarshal value into Go value"
  | ErrorString msg => msg
  end.

#[global] Instance error_eq_dec : EqDecision error.
Proof. solve_decision. Defined.

(** A Go slice is nil or holds a sequence; [len] of a nil slice is 0. *)
Definition slice (A : Type) : Type := option (list A).

Definition len {A} (s : slice A) : nat :=
  match s with None => 0 | Some l => length l end.

Definition elems {A} (s : slice A) : list A :=
  match s with None => [] | Some l => l end.

(** ** Bytes and UTF-8 (package unicode/utf8) *)

Module utf8.

Definition val (b : ascii) : N := N_of_ascii b.

Definition byte (n : N) : ascii := ascii_of_N n.

Definition in_range (lo hi : N) (b : ascii) : bool :=
  ((lo <=? val b) && (val b <=? hi))%N.

(** a continuation byte, 10xxxxxx *)
Definition cont (b : ascii) : bool := in_range 0x80 0xBF b.

Definition RuneError : N := 0xFFFD.
Definition RuneSelf : N := 0x80.

(** [utf8.DecodeRuneInString]: the rune that starts [s] and its width in
    bytes; [(RuneError, 1)] when [s] does not start with a well-formed
    encoding (shortest form, no surrogate, at most U+10FFFF). *)
Definition DecodeRune (s : string) : N * nat :=
  match s with
  | EmptyString => (RuneError, 0)
  | String b0 t =>
    let v0 := val b0 in
    if (v0 <? RuneSelf)%N then (v0, 1)
    else if (v0 <? 0xC2)%N then (RuneError, 1)
    else if (v0 <? 0xE0)%N then
      match t with
      | String b1 _ =>
        if cont b1
        then (N.lor (N.shiftl (N.land v0 0x1F) 6) (N.land (val b1) 0x3F), 2)
        else (RuneError, 1)
      | _ => (RuneError, 1)
      end
    else if (v0 <? 0xF0)%N then
      match t with
      | String b1 (String b2 _) =>
        let lo := if (v0 =? 0xE0)%N then 0xA0%N else 0x80%N in
        let hi := if (v0 =? 0xED)%N then 0x9F%N else 0xBF%N in
        if in_range lo hi b1 && cont b2
        then (N.lor (N.shiftl (N.land v0 0x0F) 12)
                (N.lor (N.shiftl (N.land (val b1) 0x3F) 6)
                       (N.land (val b2) 0x3F)), 3)
        else (RuneError, 1)
      | _ => (RuneError, 1)
      end
    else if (v0 <? 0xF5)%N then
      match t with
      | String b1 (String b2 (String b3 _)) =>
        let lo := if (v0 =? 0xF0)%N then 0x90%N else 0x80%N in
        let hi := if (v0 =? 0xF4)%N then 0x8F%N else 0xBF%N in
        if in_range lo hi b1 && cont b2 && cont b3
        then (N.lor (N.shiftl (N.land v0 0x07) 18)
                (N.lor (N.shiftl (N.land (val b1) 0x3F) 12)
                   (N.lor (N.shiftl (N.land (val b2) 0x3F) 6)
                          (N.land (val b3) 0x3F))), 4)
        else (RuneError, 1)
      | _ => (RuneError, 1)
      end
    else (RuneError, 1)
  end.

(** [utf8.EncodeRune]: the UTF-8 bytes of a rune; surrogates and runes
    beyond U+10FFFF are written as U+FFFD. *)
Definition EncodeRune (r : N) : string :=
  let three (r : N) :=
    String (byte (N.lor 0xE0 (N.shiftr r 12)))
      (String (byte (N.lor 0x80 (N.land (N.shiftr r 6) 0x3F)))
         (String (byte (N.lor 0x80 (N.land r 0x3F))) EmptyString)) in
  if (r <=? 0x7F)%N then String (byte r) EmptyString
  else if (r <=? 0x7FF)%N then
    String (byte (N.lor 0xC0 (N.shiftr r 6)))
      (String (byte (N.lor 0x80 (N.land r 0x3F))) EmptyString)
  else if (0x10FFFF <? r)%N || ((0xD800 <=? r) && (r <=? 0xDFFF))%N
  then three RuneError
  else if (r <=? 0xFFFF)%N then three r
  else
    String (byte (N.lor 0xF0 (N.shiftr r 18)))
      (String (byte (N.lor 0x80 (N.land (N.shiftr r 12) 0x3F)))
         (String (byte (N.lor 0x80 (N.land (N.shiftr r 6) 0x3F)))
            (String (byte (N.lor 0x80 (N.land r 0x3F))) EmptyString))).

(** [c == RuneError && size == 1]: no well-formed rune at this place. *)
Definition ill_formed (c : N) (size : nat) : bool :=
  (c =? RuneError)%N && Nat.eqb size 1.

(** [c == '\u2028' || c == '\u2029'] *)
Definition is_line_sep (c : N) : bool := (c =? 0x2028)%N || (c =? 0x2029)%N.

(** [utf8.ValidString].  [k] counts the continuation bytes of the current
    rune that were already checked by [DecodeRune] and are stepped over. *)
Fixpoint valid_from (k : nat) (s : string) : bool :=
  match s with
  | EmptyString => true
  | String b t =>
    match k with
    | S k' => valid_from k' t
    | O =>
      match DecodeRune s with
      | (r, size) =>
        if ill_formed r size then false
        else valid_from (size - 1) t
      end
    end
  end.

Definition ValidString (s : string) : bool := valid_from 0 s.

End utf8.

(** ** The JSON text codec (package encoding/json, as [json.Marshal] and
    [websocket.JSON.Receive] use it on a [packet]) *)

Module json.

Import utf8.
Local Open Scope char_scope.

(** the digit table ["0123456789abcdef"] *)
Definition hex (n : N) : ascii :=
  if (n <? 10)%N then byte (48 + n) else byte (87 + n).

(** [htmlSafeSet]: the ASCII bytes written as they are. *)
Definition htmlSafe (b : ascii) : bool :=
  in_range 0x20 0x7F b &&
  negb (bool_decide (b = "034" ∨ b = "\" ∨ b = "<" ∨ b = ">" ∨ b = "&")).

(** The escape of an ASCII byte outside [htmlSafeSet]. *)
Definition escape (b : ascii) : string :=
  match b with
  | "\" | "034" => String "\" (String b "")
  | "008" => String "\" "b"
  | "012" => String "\" "f"
  | "010" => String "\" "n"
  | "013" => String "\" "r"
  | "009" => String "\" "t"
  | _ => String "\" (String "u" (String "0" (String "0"
           (String (hex (N.shiftr (val b) 4))
              (String (hex (N.land (val b) 0xF)) "")))))
  end.

(** The loop of [appendString] (with escapeHTML set): the text between the
    quotes.  The loop index moves by the width of a rune; here the walk is
    byte by byte and [k] counts the bytes of the current rune still to step
    over, copied when [keep] holds (a well-formed rune) and dropped
    otherwise (U+2028 and U+2029, written as an escape). *)
Fixpoint quote_from (keep : bool) (k : nat) (src : string) : string :=
  match src with
  | EmptyString => ""
  | String b t =>
    match k with
    | S k' => if keep then String b (quote_from keep k' t)
              else quote_from keep k' t
    | O =>
      if (val b <? RuneSelf)%N then
        if htmlSafe b then String b (quote_from true 0 t)
        else escape b +:+ quote_from true 0 t
      else
        match DecodeRune src with
        | (c, size) =>
          if ill_formed c size
          then String "\" "ufffd" +:+ quote_from true 0 t
          else if is_line_sep c
          then String "\" (String "u" (String "2" (String "0" (String "2"
                 (String (hex (N.land c 0xF)) "")))))
               +:+ quote_from false (size - 1) t
          else String b (quote_from true (size - 1) t)
        end
    end
  end.

Definition appendString (src : string) : string :=
  String "034" (quote_from true 0 src +:+ String "034" "").

(** A JSON array of strings; a nil slice is written [null]. *)
Fixpoint join_with (sep : string) (l : list string) : string :=
  match l with
  | [] => ""
  | [x] => x
  | x :: l' => x +:+ sep +:+ join_with sep l'
  end.

Definition encode_strings (s : slice string) : string :=
  match s with
  | None => "null"
  | Some l => "[" +:+ join_with "," (appendString <$> l) +:+ "]"
  end.

(** A JSON object of a [map[string]string]: the keys are written in
    sorted (bytewise) order; a nil map is written [null]. *)
Definition sorted_entries (m : gmap string string) : list (string * string) :=
  merge_sort (λ x y, String.le x.1 y.1) (map_to_list m).

Definition encode_member (kv : string * string) : string :=
  appendString kv.1 +:+ ":" +:+ appendString kv.2.

Definition encode_map (m : option (gmap string string)) : string :=
  match m with
  | None => "null"
  | Some m => "{" +:+ join_with "," (encode_member <$> sorted_entries m) +:+ "}"
  end.

(** *** Parsing *)

(** A parsed JSON value; a number keeps its literal. *)
Inductive value : Type :=
| Null
| Bool (b : bool)
| Number (lit : string)
| Str (s : string)
| Array (l : list value)
| Object (l : list (string * value)).

Definition isSpace (c : ascii) : bool :=
  bool_decide (c = " " ∨ c = "009" ∨ c = "013" ∨ c = "010").

Fixpoint skip_space (s : string) : string :=
  match s with
  | String c t => if isSpace c then skip_space t else s
  | EmptyString => s
  end.

Definition hexval (c : ascii) : option N :=
  if in_range 48 57 c then Some (val c - 48)%N
  else if in_range 97 102 c then Some (val c - 87)%N
  else if in_range 65 70 c then Some (val c - 55)%N
  else None.

Fixpoint drop (n : nat) (s : string) : string :=
  match n, s with
  | S n', String _ t => drop n' t
  | _, _ => s
  end.

Fixpoint take (k : nat) (s : string) : string :=
  match k, s with
  | S k', String c t => String c (take k' t)
  | _, _ => EmptyString
  end.

(** [getu4]: the value of the four hexadecimal digits at the front. *)
Definition hex4 (s : string) : option N :=
  match s with
  | String a (String b (String c (String d _))) =>
    x1 ← hexval a; x2 ← hexval b; x3 ← hexval c; x4 ← hexval d;
    Some (N.lor (N.shiftl x1 12) (N.lor (N.shiftl x2 8) (N.lor (N.shiftl x3 4) x4)))
  | _ => None
  end.

Definition getu4 (s : string) : option N :=
  match s with
  | String "\" (String "u" t) => hex4 t
  | _ => None
  end.

Definition IsSurrogate (r : N) : bool := ((0xD800 <=? r) && (r <? 0xE000))%N.

(** [utf16.DecodeRune] *)
Definition utf16_DecodeRune (r1 : N) (r2 : option N) : N :=
  match r2 with
  | Some r2 =>
    if ((0xD800 <=? r1) && (r1 <? 0xDC00) && (0xDC00 <=? r2) && (r2 <? 0xE000))%N
    then (N.lor (N.shiftl (r1 - 0xD800) 10) (r2 - 0xDC00) + 0x10000)%N
    else RuneError
  | None => RuneError
  end.

(** The text of a string literal after its opening quote: the unquoted
    bytes and what follows the closing quote ([unquote], with the syntax
    check of the scanner).  [k] counts input bytes still to step over:
    the rest of a well-formed rune (copied, [keep]) or the digits of an
    escape already read (dropped). *)
Fixpoint unquote_from (keep : bool) (k : nat) (s : string) : option (string * string) :=
  match s with
  | EmptyString => None
  | String c t =>
    match k with
    | S k' =>
      if keep then '(u, r) ← unquote_from keep k' t; Some (String c u, r)
      else unquote_from keep k' t
    | O =>
      if bool_decide (c = "034") then Some (EmptyString, t)
      else if (val c <? 0x20)%N then None
      else if bool_decide (c = "\") then
        match t with
        | String e t' =>
          let lit (x : ascii) := '(u, r) ← unquote_from true 0 t'; Some (String x u, r) in
          match e with
          | "034" | "\" | "/" => lit e
          | "b" => lit "008"
          | "f" => lit "012"
          | "n" => lit "010"
          | "r" => lit "013"
          | "t" => lit "009"
          | "u" =>
            rr ← hex4 t';
            if IsSurrogate rr then
              let dec := utf16_DecodeRune rr (getu4 (drop 4 t')) in
              if (dec =? RuneError)%N
              then '(u, r) ← unquote_from false 4 t';
                   Some (EncodeRune RuneError +:+ u, r)
              else '(u, r) ← unquote_from false 10 t';
                   Some (EncodeRune dec +:+ u, r)
            else '(u, r) ← unquote_from false 4 t';
                 Some (EncodeRune rr +:+ u, r)
          | _ => None
          end
        | EmptyString => None
        end
      else if (val c <? RuneSelf)%N then
        '(u, r) ← unquote_from true 0 t; Some (String c u, r)
      else
        match DecodeRune s with
        | (rr, size) =>
          if ill_formed rr size
          then '(u, r) ← unquote_from true 0 t; Some (EncodeRune RuneError +:+ u, r)
          else '(u, r) ← unquote_from true (size - 1) t; Some (String c u, r)
        end
    end
  end.

Definition parse_string (s : string) : option (string * string) :=
  unquote_from true 0 s.

(** A number literal: an optional minus sign, an integer part without a
    leading zero, an optional fraction and an optional exponent. *)
Definition isDigit (c : ascii) : bool := in_range 48 57 c.

Fixpoint digits (s : string) : string * string :=
  match s with
  | String c t =>
    if isDigit c then let '(ds, r) := digits t in (String c ds, r)
    else (EmptyString, s)
  | EmptyString => (EmptyString, s)
  end.

Definition digits1 (s : string) : option (string * string) :=
  match digits s with
  | (EmptyString, _) => None
  | (ds, r) => Some (ds, r)
  end.

Definition parse_number (s : string) : option (string * string) :=
  let '(sign, s1) :=
    match s with String "-" t => ("-"%string, t) | _ => (EmptyString, s) end in
  '(int, s2) ← match s1 with
               | String "0" t => Some ("0"%string, t)
               | String c t =>
                 if in_range 49 57 c
                 then let '(ds, r) := digits t in Some (String c ds, r)
                 else None
               | EmptyString => None
               end;
  '(frac, s3) ← match s2 with
                | String "." t => '(ds, r) ← digits1 t; Some (String "." ds, r)
                | _ => Some (EmptyString, s2)
                end;
  '(exp, s4) ← match s3 with
               | String c t =>
                 if bool_decide (c = "e" ∨ c = "E") then
                   let '(sg, t') :=
                     match t with
                     | String d t' =>
                       if bool_decide (d = "+" ∨ d = "-")
                       then (String d EmptyString, t') else (EmptyString, t)
                     | EmptyString => (EmptyString, t)
                     end in
                   '(ds, r) ← digits1 t'; Some (String c (sg +:+ ds), r)
                 else Some (EmptyString, s3)
               | EmptyString => Some (EmptyString, s3)
               end;
  Some (sign +:+ int +:+ frac +:+ exp, s4).

Fixpoint starts_with (p s : string) : option string :=
  match p, s with
  | EmptyString, _ => Some s
  | String a p', String b s' => if bool_decide (a = b) then starts_with p' s' else None
  | _, _ => None
  end.

(** One JSON value at the front of [s] (after white space) and the text
    that follows it.  [n] bounds the number of nested calls. *)
Fixpoint parse_value (n : nat) (s : string) : option (value * string) :=
  match n with
  | O => None
  | S n' =>
    match skip_space s with
    | String c t =>
      match c with
      | "034" => '(x, r) ← parse_string t; Some (Str x, r)
      | "[" =>
        match skip_space t with
        | String "]" r => Some (Array [], r)
        | _ => '(l, r) ← parse_elements n' t; Some (Array l, r)
        end
      | "{" =>
        match skip_space t with
        | String "}" r => Some (Object [], r)
        | _ => '(l, r) ← parse_members n' t; Some (Object l, r)
        end
      | "t" => r ← starts_with "rue" t; Some (Bool true, r)
      | "f" => r ← starts_with "alse" t; Some (Bool false, r)
      | "n" => r ← starts_with "ull" t; Some (Null, r)
      | _ => '(lit, r) ← parse_number (String c t); Some (Number lit, r)
      end
    | EmptyString => None
    end
  end
with parse_elements (n : nat) (s : string) : option (list value * string) :=
  match n with
  | O => None
  | S n' =>
    '(v, r) ← parse_value n' s;
    match skip_space r with
    | String "," r' => '(l, r'') ← parse_elements n' r'; Some (v :: l, r'')
    | String "]" r' => Some ([v], r')
    | _ => None
    end
  end
with parse_members (n : nat) (s : string) : option (list (string * value) * string) :=
  match n with
  | O => None
  | S n' =>
    match skip_space s with
    | String "034" t =>
      '(k, r) ← parse_string t;
      match skip_space r with
      | String ":" r1 =>
        '(v, r2) ← parse_value n' r1;
        match skip_space r2 with
        | String "," r3 => '(l, r4) ← parse_members n' r3; Some ((k, v) :: l, r4)
        | String "}" r3 => Some ([(k, v)], r3)
        | _ => None
        end
      | _ => None
      end
    | _ => None
    end
  end.

(** A whole text: one value, then only white space.  Every nested call
    but the one from an array to its first element consumes a byte. *)
Definition parse (s : string) : option value :=
  '(v, r) ← parse_value (2 * String.length s + 2) s;
  match skip_space r with
  | EmptyString => Some v
  | _ => None
  end.

(** The folded form of an object key: a key names a struct field when
    their folded forms agree ([bytes.EqualFold]: ASCII case, and the two
    runes that fold to an ASCII letter, U+017F and U+212A). *)
Definition fold_byte (c : ascii) : ascii :=
  if in_range 97 122 c then byte (val c - 32) else c.

Fixpoint foldName (s : string) : string :=
  match s with
  | String "197" (String "191" t) => String "S" (foldName t)
  | String "226" (String "132" (String "170" t)) => String "K" (foldName t)
  | String c t => String (fold_byte c) (foldName t)
  | EmptyString => EmptyString
  end.

(** A JSON value stored into a Go [string]: [null] leaves it as it is,
    a value of another kind is an [UnmarshalTypeError] and leaves it too. *)
Definition store_string (old : string) (v : value) : string * option error :=
  match v with
  | Str s => (s, None)
  | Null => (old, None)
  | _ => (old, Some UnmarshalTypeError)
  end.

(** The first error is the one reported ([saveError]). *)
Definition saveError (e1 e2 : option error) : option error :=
  match e1 with Some _ => e1 | None => e2 end.

(** A JSON array stored into a [[]string] that holds [old]: element [i]
    is stored into slot [i] (a slot past the old length starts empty). *)
Fixpoint store_strings (old : list string) (l : list value) : list string * option error :=
  match l with
  | [] => ([], None)
  | v :: l' =>
    let '(x, e1) := store_string (default EmptyString (head old)) v in
    let '(xs, e2) := store_strings (tail old) l' in
    (x :: xs, saveError e1 e2)
  end.

(** A JSON object stored into a [map[string]string]: the entries are added
    to the map in the order of the text. *)
Fixpoint store_map (m : gmap string string) (l : list (string * value))
  : gmap string string * option error :=
  match l with
  | [] => (m, None)
  | (k, v) :: l' =>
    let '(x, e1) := store_string EmptyString v in
    let '(m', e2) := store_map (<[k := x]> m) l' in
    (m', saveError e1 e2)
  end.

End json.

(** ** main.go: the packet and its wire form *)

Module Wire.

(** [type packet struct { Type string; Args []string; Map map[string]string }]
    (the field [Type] is [Type_] here). *)
Record packet : Type := Packet {
  Type_ : string;
  Args : slice string;
  Map : option (gmap string string)
}.

#[global] Instance packet_eq_dec : EqDecision packet.
Proof. solve_decision. Defined.

(** The zero value of [packet]. *)
Definition zero : packet := Packet EmptyString None None.

(** [newPacket(args ...string)]: [Map] is made; with arguments, the first
    is the type and the others are appended to the (nil) [Args]. *)
Definition newPacket (args : list string) : packet :=
  match args with
  | [] => Packet EmptyString None (Some ∅)
  | [t] => Packet t None (Some ∅)
  | t :: rest => Packet t (Some rest) (Some ∅)
  end.

(** [json.Marshal(pack)]: the fields in the order of their declaration. *)
Definition Marshal (p : packet) : string :=
  "{" +:+ json.appendString "Type" +:+ ":" +:+ json.appendString (Type_ p) +:+
  "," +:+ json.appendString "Args" +:+ ":" +:+ json.encode_strings (Args p) +:+
  "," +:+ json.appendString "Map" +:+ ":" +:+ json.encode_map (Map p) +:+ "}".

(** One member of the JSON object stored into the field it names; a key
    that names no field is skipped. *)
Definition store_member (p : packet) (k : string) (v : json.value)
  : packet * option error :=
  let f := json.foldName k in
  if bool_decide (f = "TYPE") then
    let '(x, e) := json.store_string (Type_ p) v in
    (Packet x (Args p) (Map p), e)
  else if bool_decide (f = "ARGS") then
    match v with
    | json.Array l =>
      let '(xs, e) := json.store_strings (elems (Args p)) l in
      (Packet (Type_ p) (Some xs) (Map p), e)
    | json.Null => (Packet (Type_ p) None (Map p), None)
    | _ => (p, Some UnmarshalTypeError)
    end
  else if bool_decide (f = "MAP") then
    match v with
    | json.Object l =>
      let '(m, e) := json.store_map (default ∅ (Map p)) l in
      (Packet (Type_ p) (Args p) (Some m), e)
    | json.Null => (Packet (Type_ p) (Args p) None, None)
    | _ => (p, Some UnmarshalTypeError)
    end
  else (p, None).

Fixpoint store_members (p : packet) (l : list (string * json.value))
  : packet * option error :=
  match l with
  | [] => (p, None)
  | (k, v) :: l' =>
    let '(p1, e1) := store_member p k v in
    let '(p2, e2) := store_members p1 l' in
    (p2, json.saveError e1 e2)
  end.

(** [json.Unmarshal(data, &p)] on a zero [p]: a malformed text is a
    [SyntaxError]; [null] stores nothing; an object is stored member by
    member; any other value is an [UnmarshalTypeError]. *)
Definition Unmarshal (data : string) : packet * option error :=
  match json.parse data with
  | None => (zero, Some SyntaxError)
  | Some (json.Object l) => store_members zero l
  | Some json.Null => (zero, None)
  | Some _ => (zero, Some UnmarshalTypeError)
  end.

(** Every string of the packet is well-formed UTF-8. *)
Definition valid_utf8 (p : packet) : Prop :=
  utf8.ValidString (Type_ p) = true ∧
  Forall (λ s, utf8.ValidString s = true) (elems (Args p)) ∧
  match Map p with
  | None => True
  | Some m =>
    map_Forall (λ k v, utf8.ValidString k = true ∧ utf8.ValidString v = true) m
  end.

#[global] Instance valid_utf8_dec p : Decision (valid_utf8 p).
Proof. unfold valid_utf8. destruct (Map p); apply _. Defined.

End Wire.

(** ** cmd.go: the directive packet *)

Module Dom.

(** [type packet struct { Type string; Data map[string]string }] *)
Record packet : Type := Packet {
  Type_ : string;
  Data : gmap string string
}.

#[global] Instance packet_eq_dec : EqDecision packet.
Proof. solve_decision. Defined.

(** [newPacket(t)] *)
Definition newPacket (t : string) : packet := Packet t ∅.

(** [p.Data[k] = v] *)
Definition set (k v : string) (p : packet) : packet :=
  Packet (Type_ p) (<[k := v]> (Data p)).

End Dom.

(** ** The session and what surrounds it *)

(** [c.user]: its type is declared outside src; cmd.go reads and writes
    the fields [Name] and [Email] and calls its methods [load] and [save]. *)
Record user : Type := User {
  Name : string;
  Email : string
}.

#[global] Instance user_eq_dec : EqDecision user.
Proof. solve_decision. Defined.

(** The collaborators that cmd.go calls and src does not hold: the checks
    of names and addresses, the path of an account ([*users], [SEP],
    [indexPath], [pathExists]) and the two methods of [c.user], which may
    change both the record they are called on and the store.  [rangeOrder]
    is the order in which a [range] loop visits the keys of a map, which
    Go leaves open. *)
Class Env : Type := {
  Store : Type;
  isName : string → bool;
  isEmail : string → bool;
  users : string;
  SEP : string;
  indexPath : string → string;
  pathExists : Store → string → bool;
  user_load : user → string → string → Store → user * Store * option error;
  user_save : user → string → string → Store → user * Store * option error;
  rangeOrder : list string → list string
}.

(** An inbound frame: its payload, or the error of the read that failed. *)
Definition frame : Type := error + string.

(** What the session did, in order: the packets written with
    [c.ws.WriteJSON] and the result of each write, the frames taken by
    [c.recieve] and by [c.readPacket], and the calls of [load] and [save]. *)
Inductive event : Type :=
| Sent (p : Dom.packet) (r : option error)
| Received (f : frame)
| Read (f : frame)
| Load (name pass : string) (r : option error)
| Save (name pass : string) (r : option error).

#[global] Instance event_eq_dec : EqDecision event.
Proof. solve_decision. Defined.

Section Session.
Context `{Env}.

(** The client [c] and its surroundings.  [inbox] holds the frames the
    browser sends, the oldest first (an empty inbox is a closed stream);
    [wfail] holds the results of the writes to come (a write succeeds when
    none is left). *)
Record world : Type := World {
  inbox : list frame;
  wfail : list (option error);
  trace : list event;
  cuser : user;
  store : Store
}.

#[global] Instance world_eq_dec `{!EqDecision Store} : EqDecision world.
Proof. solve_decision. Defined.

Definition log (ev : event) (w : world) : world :=
  World (inbox w) (wfail w) (trace w ++ [ev]) (cuser w) (store w).

(** A method of [*client]: it runs in a world and leaves a world. *)
Definition M (A : Type) : Type := world → A * world.

Definition ret {A} (a : A) : M A := λ w, (a, w).

Definition bind {A B} (m : M A) (k : A → M B) : M B :=
  λ w, let '(a, w') := m w in k a w'.

Notation "'do' x <- m ; k" := (bind m (λ x, k))
  (at level 10, x pattern, m at level 100, k at level 200, only parsing).

(** The result of the next write. *)
Definition next_write (w : world) : option error :=
  default None (head (wfail w)).

(** [c.ws.WriteJSON(p)] *)
Definition WriteJSON (p : Dom.packet) : M (option error) := λ w,
  (next_write w,
   World (inbox w) (tail (wfail w)) (trace w ++ [Sent p (next_write w)])
     (cuser w) (store w)).

(** The next inbound frame, taken off the stream. *)
Definition next_frame : M frame := λ w,
  match inbox w with
  | [] => (inl EOF, w)
  | f :: rest => (f, World rest (wfail w) (trace w) (cuser w) (store w))
  end.

(** Modelled from the spec: [recieve], which cmd.go calls and src does not
    hold.  A query call suspends its caller until the next inbound message
    arrives and returns the raw payload of that message; when the
    transport closes or fails the caller gets the error. *)
Definition recieve : M (string * option error) :=
  do f <- next_frame;
  λ w, (match f with
        | inr m => (m, None)
        | inl e => (EmptyString, Some e)
        end, log (Received f) w).

(** [readPacket] (main.go): [websocket.JSON.Receive(c.ws, &p)]. *)
Definition readPacket : M (Wire.packet * option error) :=
  do f <- next_frame;
  λ w, (match f with
        | inr m => Wire.Unmarshal m
        | inl e => (Wire.zero, Some e)
        end, log (Read f) w).

(** *** cmd.go: the directives *)

(** [appendMsg]: a [div.msg] element appended to [selector]. *)
Definition appendMsg_packet (selector text : string) : Dom.packet :=
  let p := Dom.newPacket "appendElement" in
  let p := Dom.set "Element" "div" p in
  let p := Dom.set "Selector" selector p in
  let p := Dom.set "Class" "msg" p in
  let p := Dom.set "Text" text p in
  Dom.set "Scroll" "true" p.

Definition appendMsg (selector text : string) : M (option error) :=
  WriteJSON (appendMsg_packet selector text).

Definition appendLink (selector url text : string) : M (option error) :=
  let p := Dom.newPacket "appendElement" in
  let p := Dom.set "Element" "a" p in
  let p := Dom.set "Selector" selector p in
  let p := Dom.set "Id" text p in
  let p := Dom.set "Class" "ip-link" p in
  let p := Dom.set "Href" url p in
  let p := Dom.set "Text" text p in
  let p := Dom.set "Target" "_blank" p in
  let p := Dom.set "Scroll" "true" p in
  let p := Dom.set "OnClick" "removeDecoration" p in
  WriteJSON p.

Definition appendBreak (selector : string) : M (option error) :=
  let p := Dom.newPacket "appendElement" in
  let p := Dom.set "Element" "br" p in
  let p := Dom.set "Selector" selector p in
  let p := Dom.set "Scroll" "true" p in
  WriteJSON p.

Definition focus (selector value : string) : M (option error) :=
  let p := Dom.newPacket "focus" in
  let p := Dom.set "Selector" selector p in
  let p := Dom.set "Value" value p in
  WriteJSON p.

(** The packet of the [exists] query. *)
Definition exists_packet (selector : string) : Dom.packet :=
  Dom.set "Selector" selector (Dom.newPacket "exists").

(** [exists]: true only when the write went through and the answer is
    the text [true]. *)
Definition exists_ (selector : string) : M bool :=
  do e <- WriteJSON (exists_packet selector);
  match e with
  | None =>
    do (b, e) <- recieve;
    ret (bool_decide (e = None) && bool_decide (b = "true"))
  | Some _ => ret false
  end.

Definition innerHTML (selector value : string) : M (option error) :=
  let p := Dom.newPacket "innerHTML" in
  let p := Dom.set "Selector" selector p in
  let p := Dom.set "Value" value p in
  WriteJSON p.

Definition getHTML_packet (selector : string) : Dom.packet :=
  Dom.set "Selector" selector (Dom.newPacket "getHTML").

(** [getHTML].  The [e] of [b, e := c.recieve()] is declared in the inner
    block: the error of the receive does not reach the result [e]. *)
Definition getHTML (selector : string) : M (string * option error) :=
  do ok <- exists_ selector;
  if ok then
    do e <- WriteJSON (getHTML_packet selector);
    match e with
    | None =>
      do (b, e') <- recieve;
      ret (match e' with None => b | Some _ => EmptyString end, e)
    | Some _ => ret (EmptyString, e)
    end
  else ret (EmptyString, Some (ErrorString "element does not exist")).

Definition setAttribute_packet (selector attribute value : string) : Dom.packet :=
  let p := Dom.newPacket "setAttribute" in
  let p := Dom.set "Selector" selector p in
  let p := Dom.set "Attribute" attribute p in
  Dom.set "Value" value p.

Definition setAttribute (selector attribute value : string) : M (option error) :=
  WriteJSON (setAttribute_packet selector attribute value).

Definition getAttribute_packet (selector attribute : string) : Dom.packet :=
  let p := Dom.newPacket "getAttribute" in
  let p := Dom.set "Selector" selector p in
  Dom.set "Attribute" attribute p.

(** [getAttribute]; the error of the receive stays in the inner block, as
    in [getHTML]. *)
Definition getAttribute (selector attribute : string) : M (string * option error) :=
  do e <- WriteJSON (getAttribute_packet selector attribute);
  match e with
  | None =>
    do (b, e') <- recieve;
    ret (match e' with None => b | Some _ => EmptyString end, e)
  | Some _ => ret (EmptyString, e)
  end.

(** [setProperty]: the property is the type of the packet. *)
Definition setProperty (selector property value : string) : M (option error) :=
  let p := Dom.newPacket property in
  let p := Dom.set "Selector" selector p in
  let p := Dom.set "Value" value p in
  WriteJSON p.

Definition getProperty_packet (selector property : string) : Dom.packet :=
  let p := Dom.newPacket "getProperty" in
  let p := Dom.set "Selector" selector p in
  Dom.set "Property" property p.

Definition getProperty (selector property : string) : M (string * option error) :=
  do e <- WriteJSON (getProperty_packet selector property);
  match e with
  | None =>
    do (b, e') <- recieve;
    ret (match e' with None => b | Some _ => EmptyString end, e)
  | Some _ => ret (EmptyString, e)
  end.

Definition editable (selector value : string) : M (option error) :=
  let p := Dom.newPacket "editable" in
  let p := Dom.set "Selector" selector p in
  let p := Dom.set "Value" value p in
  WriteJSON p.

(** [prompt]: the text is shown and the next frame is the input.  The
    result of the write is overwritten by the result of the receive
    ([b, e := c.recieve()] is in the block of the function). *)
Definition prompt (text : string) : M (string * option error) :=
  do _ <- (if bool_decide (0 < String.length text)
           then appendMsg "#msg-list" text
           else appendMsg "#msg-list" "Enter some input:");
  do (b, e) <- recieve;
  ret (match e with None => b | Some _ => EmptyString end, e).

(** [promptSecure]: once the attribute was read without error, the
    deferred [setAttribute] runs when the function returns, with the value
    read. *)
Definition promptSecure (selector text : string) : M (string * option error) :=
  do (attr, e) <- getAttribute selector "type";
  match e with
  | None =>
    do r <- (do e <- setAttribute selector "type" "password";
             match e with
             | None => prompt text
             | Some _ => ret (EmptyString, e)
             end);
    do _ <- setAttribute selector "type" attr;
    ret r
  | Some _ => ret (EmptyString, e)
  end.

(** *** cmd.go: the commands *)

(** [type command struct]: a description and a handler, which gets the
    client and the arguments and returns an error. *)
Record command : Type := Command {
  Desc : string;
  Handler : list string → M (option error)
}.

(** The descriptions of the commands that [init] puts into [cmdMap]; the
    handler of [help] reads the keys and the descriptions of that map. *)
Definition cmdDesc : gmap string string :=
  <["register" := "register a user account"]>
  (<["login" := "login lets you log into a registered user account."]>
  (<["clear" := "clear the current terminal's content"]>
  (<["help" := "help returns help information about available commands."]> ∅))).

(** [cmds += " " + k] for every key, in the order of the [range]. *)
Definition key_list (keys : list string) : string :=
  foldl (λ cmds k, cmds +:+ " " +:+ k) EmptyString keys.

Definition help (args : list string) : M (option error) :=
  match args with
  | [] => ret None
  | [_] =>
    appendMsg "#msg-list"
      ("Available commands:" +:+ key_list (rangeOrder (map_to_list cmdDesc).*1))
  | _ :: a1 :: _ =>
    match cmdDesc !! a1 with
    | Some desc => appendMsg "#msg-list" desc
    | None => appendMsg "#msg-list" ("Command not available: " +:+ a1)
    end
  end.

(** The result of [innerHTML] is dropped. *)
Definition clear (args : list string) : M (option error) :=
  match args with
  | [] => ret None
  | _ :: _ => do _ <- innerHTML "#msg-list" " "; ret None
  end.

(** [c.user.load(name, pass)] *)
Definition load (name pass : string) : M (option error) := λ w,
  let '(u, st, e) := user_load (cuser w) name pass (store w) in
  (e, World (inbox w) (wfail w) (trace w ++ [Load name pass e]) u st).

(** [c.user.save(name, pass)] *)
Definition save (name pass : string) : M (option error) := λ w,
  let '(u, st, e) := user_save (cuser w) name pass (store w) in
  (e, World (inbox w) (wfail w) (trace w ++ [Save name pass e]) u st).

(** [c.user.Email = email; c.user.Name = name] *)
Definition set_user (name email : string) : M unit := λ w,
  (tt, World (inbox w) (wfail w) (trace w) (User name email) (store w)).

(** Reading [c.user] and the store. *)
Definition get_user : M user := λ w, (cuser w, w).
Definition get_store : M Store := λ w, (store w, w).

(** [login].  Inside [if pathExists(path)] the [e] of
    [pass, e := c.promptSecure(...)] is a new variable: what is assigned to
    it there does not reach the result of the handler. *)
Definition login (args : list string) : M (option error) :=
  match args with
  | [] => ret None
  | [_] => appendMsg "#msg-list" "Usage: login <name>"
  | _ :: name :: _ =>
    if isName name then
      let path := users +:+ SEP +:+ indexPath name in
      do st <- get_store;
      if pathExists st path then
        do (pass, e) <- promptSecure "#msg-txt" "Please enter your password";
        do _ <- (if bool_decide (e = None) && bool_decide (0 < String.length pass)
                 then
                   do e <- load name pass;
                   match e with
                   | Some _ => appendMsg "#msg-list" "Login failed"
                   | None =>
                     do u <- get_user;
                     appendMsg "#msg-list" ("Welcome back, " +:+ Name u)
                   end
                 else ret None);
        ret None
      else appendMsg "#msg-list" "User does not exist"
    else appendMsg "#msg-list" "Invalid characters in name"
  end.

(** [register].  Inside [if isName(name)] the [e] of
    [email, e := c.prompt(...)] is a new variable, as in [login]. *)
Definition register (args : list string) : M (option error) :=
  match args with
  | _ :: name :: _ =>
    if isName name then
      do (email, e) <- prompt "Enter your email address";
      do _ <- (if bool_decide (e = None) && isEmail email then
                 do (pass1, e1) <- promptSecure "#msg-txt" "Enter a good password";
                 match e1 with
                 | None =>
                   do (pass2, e2) <- promptSecure "#msg-txt" "Re-enter your password";
                   if bool_decide (e2 = None) && bool_decide (pass1 = pass2) then
                     do _ <- set_user name email;
                     do e <- save name pass1;
                     match e with
                     | None =>
                       appendMsg "#msg-list"
                         "User account created (don't forget your password!)"
                     | Some err => appendMsg "#msg-list" (Error err)
                     end
                   else appendMsg "#msg-list" "Failed! Passwords did not match"
                 | Some _ => ret None
                 end
               else appendMsg "#msg-list" "Bad email address");
      ret None
    else appendMsg "#msg-list" "Invalid characters in name"
  | _ => appendMsg "#msg-list" "Usage: register <name>"
  end.

(** [cmdMap], as [init] fills it. *)
Definition cmdMap : gmap string command :=
  <["register" := Command "register a user account" register]>
  (<["login" := Command "login lets you log into a registered user account." login]>
  (<["clear" := Command "clear the current terminal's content" clear]>
  (<["help" := Command "help returns help information about available commands." help]> ∅))).

(** *** main.go: the read loop *)

(** One turn of the loop of [listener]: [None] when the loop breaks.  The
    [e] of [p, e := c.readPacket()] lives in the [if] statement: the error
    of the handler or of the write is assigned to it and dropped.  The
    handler gets the arguments of the packet (cmd.go declares it on
    [[]string]). *)
Definition listener_turn : M (option unit) :=
  do (p, e) <- readPacket;
  match e, elems (Wire.Args p) with
  | None, a0 :: rest =>
    do _ <- match cmdMap !! a0 with
            | Some cmd => Handler cmd (a0 :: rest)
            | None => appendMsg "#msgList" (a0 +:+ ": command not found ")
            end;
    ret (Some tt)
  | _, _ => ret None
  end.

(** The loop, for at most [n] turns: [None] when the turns run out. *)
Fixpoint listener_loop (n : nat) (w : world) : option (option error * world) :=
  match n with
  | O => None
  | S n' =>
    match listener_turn w with
    | (Some _, w') => listener_loop n' w'
    | (None, w') => Some (None, w')
    end
  end.

(** [listener]: every turn takes a frame off the stream and an empty
    stream ends the loop, so one turn more than there are frames is
    enough. *)
Definition listener (w : world) : option (option error * world) :=
  listener_loop (S (length (inbox w))) w.

(** [checkTLS]: [tls] is [r.TLS], nil or the state of the connection with
    its [HandshakeComplete]. *)
Definition checkTLS (tls : option bool) : string :=
  match tls with
  | Some true => "SECURED"
  | _ => "UNSECURED"
  end.

(** [wsHandler]: a connection whose origin is not [https://] followed by
    the host name and the address is logged and left alone; otherwise a
    client is made (its user is the zero value), greeted, and served by
    [listener] when the greeting could be written.  What is logged is not
    kept. *)
Definition wsHandler (hostname addrs origin : string) (tls : option bool)
    (w : world) : option world :=
  if bool_decide (origin ≠ "https://" +:+ hostname +:+ addrs) then Some w
  else
    let c := World (inbox w) (wfail w) (trace w)
               (User EmptyString EmptyString) (store w) in
    match appendMsg "#msgList" ("SOCKET " +:+ checkTLS tls) c with
    | (None, w1) => r ← listener w1; Some r.2
    | (Some _, w1) => Some w1
    end.

(** *** What a call may change *)

(** The world after [c.ws.WriteJSON(p)]. *)
Definition wrote (p : Dom.packet) (w : world) : world := (WriteJSON p w).2.

(** The world after a frame was taken off the stream by [readPacket]. *)
Definition took (f : frame) (rest : list frame) (w : world) : world :=
  World rest (wfail w) (trace w ++ [Read f]) (cuser w) (store w).

(** The world after the query packet [p] was written and the frame [m],
    the first of the stream, was taken by [recieve] as its answer. *)
Definition answered (p : Dom.packet) (m : string) (rest : list frame) (w : world)
  : world :=
  World rest (tail (wfail w)) (trace w ++ [Sent p None; Received (inr m)])
    (cuser w) (store w).

(** Any event. *)
Definition any_event (ev : event) : bool := true.

(** The events of the socket: a packet written, a frame taken by
    [recieve]. *)
Definition is_io (ev : event) : bool :=
  match ev with
  | Sent _ _ | Received _ => true
  | _ => false
  end.

Definition is_save (ev : event) : bool :=
  match ev with Save _ _ _ => true | _ => false end.

(** [w'] comes after [w]: frames were only taken off the front of the
    stream and events were only added, all of them in [P]. *)
Definition after (P : event → bool) (w w' : world) : Prop :=
  inbox w' `suffix_of` inbox w ∧
  ∃ t, trace w' = trace w ++ t ∧ forallb P t = true.

(** [w'] comes after [w] by socket events only: the user and the store
    are the same. *)
Definition io_after (w w' : world) : Prop :=
  after is_io w w' ∧ cuser w' = cuser w ∧ store w' = store w.

(** Every run of [m] ends in a world related to the one it started in. *)
Definition keeps (R : world → world → Prop) {A} (m : M A) : Prop :=
  ∀ w, R w (m w).2.

End Session.

(** ** A store held in memory, to run the session on concrete inputs *)

Module MemStore.

(** An account: its password and its record, under the path of its name. *)
Definition accounts : Type := gmap string (string * user).

Fixpoint contains (c : ascii) (s : string) : bool :=
  match s with
  | EmptyString => false
  | String a t => bool_decide (a = c) || contains c t
  end.

Definition path (name : string) : string := "users" +:+ "/" +:+ name.

Definition mem_load (u : user) (name pass : string) (st : accounts)
  : user * accounts * option error :=
  match st !! path name with
  | Some (pw, u') =>
    if bool_decide (pw = pass) then (u', st, None)
    else (u, st, Some (ErrorString "invalid credentials"))
  | None => (u, st, Some (ErrorString "no such user"))
  end.

Definition mem_save (u : user) (name pass : string) (st : accounts)
  : user * accounts * option error :=
  match st !! path name with
  | Some _ => (u, st, Some (ErrorString "user already exists"))
  | None => (u, <[path name := (pass, u)]> st, None)
  end.

#[export] Instance env : Env := {|
  Store := accounts;
  isName := λ n, bool_decide (0 < String.length n) && negb (contains " "%char n);
  isEmail := contains "@"%char;
  users := "users";
  SEP := "/";
  indexPath := id;
  pathExists := λ st p, bool_decide (is_Some (st !! p));
  user_load := mem_load;
  user_save := mem_save;
  rangeOrder := id
|}.

(** A fresh session: nobody is logged in, no event yet. *)
Definition start (st : accounts) (frames : list frame) (writes : list (option error))
  : world :=
  World frames writes [] (User EmptyString EmptyString) st.

(** The store with the account of alice. *)
Definition alice : accounts :=
  {[ path "alice" := ("secret", User "alice" "alice@example.org") ]}.

(** The frame of a command. *)
Definition cmd (args : list string) : frame :=
  inr (Wire.Marshal (Wire.Packet EmptyString (Some args) None)).

End MemStore.

(** * The wire form: decoding what was encoded *)

Module CodecFacts.

Import utf8 json.
Local Open Scope char_scope.

(** ** Strings *)

Lemma app_cons c s1 s2 : String c s1 +:+ s2 = String c (s1 +:+ s2).
Proof. done. Qed.

Lemma app_nil_l s : EmptyString +:+ s = s.
Proof. done. Qed.

Lemma str_app_assoc s1 s2 s3 : (s1 +:+ s2) +:+ s3 = s1 +:+ (s2 +:+ s3).
Proof. induction s1 as [|c s1 IH]; [done|]. by rewrite !app_cons, IH. Qed.

Lemma length_app s1 s2 :
  String.length (s1 +:+ s2) = String.length s1 + String.length s2.
Proof. induction s1 as [|c s1 IH]; [done|]. rewrite app_cons. simpl. by rewrite IH. Qed.

Lemma take_drop k s : take k s +:+ drop k s = s.
Proof.
  revert s. induction k as [|k IH]; intros [|c t]; try done.
  simpl. by rewrite app_cons, IH.
Qed.

Lemma length_drop k s : String.length (drop k s) = String.length s - k.
Proof. revert s. induction k as [|k IH]; intros [|c t]; simpl; auto. Qed.

(** ** Bytes *)

Ltac bytes b := destruct b as [[] [] [] [] [] [] [] []].

Lemma low5_small b : N.shiftr (N.land (val b) 0x1F) 5 = 0%N.
Proof. by bytes b. Qed.

Lemma low6_small b : N.shiftr (N.land (val b) 0x3F) 6 = 0%N.
Proof. by bytes b. Qed.

Lemma low6_shiftr b k : (6 <= k)%N → N.shiftr (N.land (val b) 0x3F) k = 0%N.
Proof.
  intros Hk. replace k with (6 + (k - 6))%N by lia.
  by rewrite <- N.shiftr_shiftr, low6_small, N.shiftr_0_l.
Qed.

Lemma length_take k s : k ≤ String.length s → String.length (take k s) = k.
Proof.
  revert s. induction k as [|k IH]; intros [|c t]; simpl; try lia.
  intros Hk. rewrite IH; lia.
Qed.

(** ** Runes *)

Lemma DecodeRune_ascii b t :
  (val b <? RuneSelf)%N = true → DecodeRune (String b t) = (val b, 1).
Proof. intros Hb. unfold DecodeRune. by rewrite Hb. Qed.

Lemma DecodeRune_size s c size :
  DecodeRune s = (c, size) → size ≤ String.length s ∧ (s ≠ EmptyString → 1 ≤ size).
Proof.
  unfold DecodeRune. intros Hd.
  repeat case_match; simplify_eq; simpl; split; (done || lia).
Qed.

(** [DecodeRune] looks at the bytes of the rune only. *)
Ltac split_decode H :=
  repeat match type of H with
         | context [if ?x then _ else _] => destruct x eqn:?
         | context [match ?t with EmptyString => _ | String _ _ => _ end] =>
           destruct t
         end.

Lemma DecodeRune_prefix b t c size X :
  DecodeRune (String b t) = (c, size) →
  ill_formed c size = false →
  DecodeRune (String b (take (size - 1) t +:+ X)) = (c, size).
Proof.
  unfold DecodeRune. intros Hd Hok.
  split_decode Hd; simplify_eq; try done; cbn [take Nat.sub];
    rewrite ?app_cons;
    repeat match goal with
           | H : ?x = true |- context [?x] => rewrite H
           end; done.
Qed.

(** *** U+2028 and U+2029 *)

Lemma lead3_is_E2 b :
  (val b <? 0xE0)%N = false → (val b <? 0xF0)%N = true →
  N.land (val b) 0x0F = 2%N → b = "226".
Proof. by bytes b. Qed.

Lemma mid_is_80 b :
  cont b = true → N.lor 128 (N.land (val b) 0x3F) = 128%N → b = "128".
Proof. by bytes b. Qed.

Lemma last_is_A8 b :
  cont b = true → N.lor 8192 (N.land (val b) 0x3F) = 0x2028%N → b = "168".
Proof. by bytes b. Qed.

Lemma last_is_A9 b :
  cont b = true → N.lor 8192 (N.land (val b) 0x3F) = 0x2029%N → b = "169".
Proof. by bytes b. Qed.

Lemma lead4_is_F0 b :
  (val b <? 0xF0)%N = false → (val b <? 0xF5)%N = true →
  N.shiftl (N.land (val b) 0x07) 2 = 0%N → b = "240".
Proof. by bytes b. Qed.

Lemma after_F0_is_big b :
  in_range 0x90 0xBF b = true → N.shiftr (N.land (val b) 0x3F) 4 ≠ 0%N.
Proof. by bytes b. Qed.

Lemma two_bytes_no_line_sep b0 b1 c :
  N.lor (N.shiftl (N.land (val b0) 0x1F) 6) (N.land (val b1) 0x3F) = c →
  is_line_sep c = false.
Proof.
  intros Hc. apply (f_equal (λ x, N.shiftr x 11)) in Hc.
  rewrite N.shiftr_lor, N.shiftr_shiftl_r in Hc by lia.
  change (11 - 6)%N with 5%N in Hc.
  rewrite low5_small, low6_shiftr in Hc by lia.
  unfold is_line_sep.
  destruct (N.eqb_spec c 0x2028) as [->|_]; [by vm_compute in Hc|].
  destruct (N.eqb_spec c 0x2029) as [->|_]; [by vm_compute in Hc|done].
Qed.

Lemma three_bytes_line_sep b0 b1 b2 c :
  (val b0 <? 0xE0)%N = false → (val b0 <? 0xF0)%N = true →
  cont b1 = true → cont b2 = true →
  N.lor (N.shiftl (N.land (val b0) 0x0F) 12)
    (N.lor (N.shiftl (N.land (val b1) 0x3F) 6) (N.land (val b2) 0x3F)) = c →
  is_line_sep c = true →
  b0 = "226" ∧ b1 = "128" ∧
  (c = 0x2028%N ∧ b2 = "168" ∨ c = 0x2029%N ∧ b2 = "169").
Proof.
  intros Hlo Hhi Hc1 Hc2 Hc Hsep.
  assert (N.shiftr c 12 = 2%N ∧ N.shiftr c 6 = 128%N) as [Hs12 Hs6].
  { unfold is_line_sep in Hsep.
    destruct (N.eqb_spec c 0x2028) as [->|_]; [done|].
    by destruct (N.eqb_spec c 0x2029) as [->|_]. }
  assert (b0 = "226") as ->.
  { apply lead3_is_E2; [done..|].
    apply (f_equal (λ x, N.shiftr x 12)) in Hc. rewrite Hs12 in Hc.
    rewrite !N.shiftr_lor, N.shiftr_shiftl_l, N.shiftr_shiftl_r in Hc by lia.
    change (12 - 12)%N with 0%N in Hc. change (12 - 6)%N with 6%N in Hc.
    rewrite low6_small, low6_shiftr in Hc by lia.
    by rewrite N.shiftl_0_r, !N.lor_0_r in Hc. }
  change (N.shiftl (N.land (val "226") 15) 12) with 8192%N in Hc.
  assert (b1 = "128") as ->.
  { apply mid_is_80; [done|].
    apply (f_equal (λ x, N.shiftr x 6)) in Hc. rewrite Hs6 in Hc.
    rewrite !N.shiftr_lor, N.shiftr_shiftl_l in Hc by lia.
    change (6 - 6)%N with 0%N in Hc. change (N.shiftr 8192 6) with 128%N in Hc.
    by rewrite low6_small, N.shiftl_0_r, N.lor_0_r in Hc. }
  change (N.shiftl (N.land (val "128") 63) 6) with 0%N in Hc.
  rewrite N.lor_0_l in Hc. split_and!; try done.
  unfold is_line_sep in Hsep. apply orb_prop in Hsep as [Hsep|Hsep];
    apply N.eqb_eq in Hsep; subst c.
  - left. split; [done|]. by apply last_is_A8.
  - right. split; [done|]. by apply last_is_A9.
Qed.

Lemma four_bytes_no_line_sep b0 b1 b2 b3 c :
  (val b0 <? 0xF0)%N = false → (val b0 <? 0xF5)%N = true →
  in_range (if (val b0 =? 0xF0)%N then 0x90 else 0x80)
           (if (val b0 =? 0xF4)%N then 0x8F else 0xBF) b1 = true →
  N.lor (N.shiftl (N.land (val b0) 0x07) 18)
    (N.lor (N.shiftl (N.land (val b1) 0x3F) 12)
       (N.lor (N.shiftl (N.land (val b2) 0x3F) 6) (N.land (val b3) 0x3F))) = c →
  is_line_sep c = false.
Proof.
  intros Hlo Hhi Hr Hc.
  destruct (is_line_sep c) eqn:Hsep; [exfalso|done].
  assert (N.shiftr c 16 = 0%N) as Hs16.
  { unfold is_line_sep in Hsep.
    destruct (N.eqb_spec c 0x2028) as [->|_]; [done|].
    by destruct (N.eqb_spec c 0x2029) as [->|_]. }
  rewrite <- Hc in Hs16.
  rewrite !N.shiftr_lor, N.shiftr_shiftl_l, !N.shiftr_shiftl_r in Hs16 by lia.
  change (18 - 16)%N with 2%N in Hs16. change (16 - 12)%N with 4%N in Hs16.
  apply N.lor_eq_0_iff in Hs16 as [Ha Hb].
  apply N.lor_eq_0_iff in Hb as [Hb _].
  apply lead4_is_F0 in Ha; [|done..]. subst b0.
  by apply after_F0_is_big in Hr.
Qed.

Lemma in_range_cont lo hi b :
  (0x80 <= lo)%N → (hi <= 0xBF)%N → in_range lo hi b = true → cont b = true.
Proof.
  unfold cont, in_range. intros Hlo Hhi Hr.
  apply andb_prop in Hr as [H1 H2]. apply N.leb_le in H1, H2.
  apply andb_true_intro. split; apply N.leb_le; lia.
Qed.

Lemma DecodeRune_line_sep b t c size :
  (val b <? RuneSelf)%N = false →
  DecodeRune (String b t) = (c, size) →
  is_line_sep c = true →
  size = 3 ∧ String b t = EncodeRune c +:+ drop 2 t.
Proof.
  unfold DecodeRune. intros Hb Hd Hsep. rewrite Hb in Hd.
  assert (is_line_sep RuneError = false) as Hbad by done.
  destruct (val b <? 0xC2)%N eqn:H1; [congruence|].
  destruct (val b <? 0xE0)%N eqn:H2.
  { destruct t as [|b1 t]; [congruence|].
    destruct (cont b1); [|congruence]. simplify_eq.
    by rewrite (two_bytes_no_line_sep b b1 _ eq_refl) in Hsep. }
  destruct (val b <? 0xF0)%N eqn:H3.
  { destruct t as [|b1 [|b2 t]]; [congruence..|].
    match type of Hd with
    | (if in_range ?lo ?hi b1 && cont b2 then _ else _) = _ =>
      destruct (in_range lo hi b1) eqn:Hr; [|simpl in Hd; congruence];
      destruct (cont b2) eqn:Hc2; [|simpl in Hd; congruence];
      assert (cont b1 = true) as Hc1
        by (apply (in_range_cont lo hi); [by repeat case_match..|done])
    end.
    simpl in Hd. simplify_eq.
    destruct (three_bytes_line_sep b b1 b2 _ H2 H3 Hc1 Hc2 eq_refl Hsep)
      as (-> & -> & [[Hc ->]|[Hc ->]]); by rewrite Hc. }
  destruct (val b <? 0xF5)%N eqn:H4; [|congruence].
  destruct t as [|b1 [|b2 [|b3 t]]]; [congruence..|].
  match type of Hd with
  | (if in_range ?lo ?hi b1 && cont b2 && cont b3 then _ else _) = _ =>
    destruct (in_range lo hi b1) eqn:Hr; [|simpl in Hd; congruence]
  end.
  simpl in Hd. destruct (cont b2 && cont b3); [|congruence]. simplify_eq.
  by rewrite (four_bytes_no_line_sep b b1 b2 b3 _ H3 H4 Hr eq_refl) in Hsep.
Qed.

(** ** Quoting and unquoting *)

Lemma quote_from_zero keep s : quote_from keep 0 s = quote_from true 0 s.
Proof. by destruct s. Qed.

Lemma unquote_from_zero keep s : unquote_from keep 0 s = unquote_from true 0 s.
Proof. by destruct s. Qed.

Lemma quote_from_copy k t :
  k ≤ String.length t →
  quote_from true k t = take k t +:+ quote_from true 0 (drop k t).
Proof.
  revert t. induction k as [|k IH]; intros t Hk; [done|].
  destruct t as [|b t]; simpl in Hk; [lia|].
  cbn [quote_from take drop]. rewrite app_cons, IH by lia. done.
Qed.

Lemma quote_from_skip k t :
  k ≤ String.length t → quote_from false k t = quote_from true 0 (drop k t).
Proof.
  revert t. induction k as [|k IH]; intros t Hk; [apply quote_from_zero|].
  destruct t as [|b t]; simpl in Hk; [lia|].
  cbn [quote_from drop]. apply IH. lia.
Qed.

Lemma valid_from_skip k t :
  k ≤ String.length t → valid_from k t = valid_from 0 (drop k t).
Proof.
  revert t. induction k as [|k IH]; intros t Hk; [done|].
  destruct t as [|b t]; simpl in Hk; [lia|].
  cbn [valid_from drop]. apply IH. lia.
Qed.

Lemma unquote_from_copy pre X :
  unquote_from true (String.length pre) (pre +:+ X) =
    '(u, r) ← unquote_from true 0 X; Some (pre +:+ u, r).
Proof.
  induction pre as [|c pre IH].
  - simpl. rewrite app_nil_l. by destruct (unquote_from true 0 X) as [[u r]|].
  - rewrite app_cons. cbn [String.length unquote_from]. rewrite IH.
    by destruct (unquote_from true 0 X) as [[u r]|].
Qed.

Lemma unquote_from_skip pre X :
  unquote_from false (String.length pre) (pre +:+ X) = unquote_from true 0 X.
Proof.
  induction pre as [|c pre IH].
  - simpl. rewrite app_nil_l. apply unquote_from_zero.
  - rewrite app_cons. cbn [String.length unquote_from]. apply IH.
Qed.

(** One source byte or rune, quoted and unquoted again. *)

Lemma unquote_safe b X :
  htmlSafe b = true →
  unquote_from true 0 (String b X) =
    '(u, r) ← unquote_from true 0 X; Some (String b u, r).
Proof.
  intros Hb. bytes b; try discriminate Hb; reflexivity.
Qed.

Lemma unquote_escape b X :
  (val b <? RuneSelf)%N = true → htmlSafe b = false →
  unquote_from true 0 (escape b +:+ X) =
    '(u, r) ← unquote_from true 0 X; Some (String b u, r).
Proof.
  intros Hb Hs.
  bytes b; try discriminate Hb; try discriminate Hs;
    first [ reflexivity
          | rewrite <- (unquote_from_zero false X); reflexivity ].
Qed.

Lemma unquote_rune b X :
  (val b <? RuneSelf)%N = false →
  unquote_from true 0 (String b X) =
    match DecodeRune (String b X) with
    | (rr, size) =>
      if ill_formed rr size
      then '(u, r) ← unquote_from true 0 X; Some (EncodeRune RuneError +:+ u, r)
      else '(u, r) ← unquote_from true (size - 1) X; Some (String b u, r)
    end.
Proof.
  intros Hb. bytes b; try discriminate Hb; reflexivity.
Qed.

Lemma unquote_line_sep c X :
  is_line_sep c = true →
  unquote_from true 0
    (String "\" (String "u" (String "2" (String "0" (String "2"
       (String (hex (N.land c 0xF)) EmptyString))))) +:+ X) =
    '(u, r) ← unquote_from true 0 X; Some (EncodeRune c +:+ u, r).
Proof.
  intros Hc. apply orb_prop in Hc as [Hc|Hc]; apply N.eqb_eq in Hc; subst c;
    rewrite <- (unquote_from_zero false X); reflexivity.
Qed.

Lemma quote_from_cons b t :
  quote_from true 0 (String b t) =
    if (val b <? RuneSelf)%N then
      if htmlSafe b then String b (quote_from true 0 t)
      else escape b +:+ quote_from true 0 t
    else
      match DecodeRune (String b t) with
      | (c, size) =>
        if ill_formed c size
        then String "\" "ufffd" +:+ quote_from true 0 t
        else if is_line_sep c
        then String "\" (String "u" (String "2" (String "0" (String "2"
               (String (hex (N.land c 0xF)) EmptyString)))))
             +:+ quote_from false (size - 1) t
        else String b (quote_from true (size - 1) t)
      end.
Proof. done. Qed.

Lemma valid_from_cons b t :
  valid_from 0 (String b t) =
    match DecodeRune (String b t) with
    | (r, size) => if ill_formed r size then false else valid_from (size - 1) t
    end.
Proof. done. Qed.

(** A well-formed string comes back from its quoted form. *)
Lemma unquote_quote_bounded n s rest :
  String.length s ≤ n →
  ValidString s = true →
  unquote_from true 0 (quote_from true 0 s +:+ String "034" rest) = Some (s, rest).
Proof.
  unfold ValidString. revert s.
  induction n as [|n IH]; intros s Hn Hv.
  { destruct s; [done|simpl in Hn; lia]. }
  destruct s as [|b t]; [done|].
  rewrite valid_from_cons in Hv. rewrite quote_from_cons.
  destruct (val b <? RuneSelf)%N eqn:Hb.
  - rewrite (DecodeRune_ascii _ _ Hb) in Hv.
    destruct (ill_formed (val b) 1); [done|]. cbn [Nat.sub] in Hv.
    simpl in Hn.
    destruct (htmlSafe b) eqn:Hs.
    + rewrite app_cons, unquote_safe by done. by rewrite IH by (done || lia).
    + rewrite str_app_assoc, unquote_escape by done. by rewrite IH by (done || lia).
  - destruct (DecodeRune (String b t)) as [c size] eqn:Hd.
    destruct (ill_formed c size) eqn:Hill; [done|].
    destruct (DecodeRune_size _ _ _ Hd) as [Hsz1 Hsz2].
    specialize (Hsz2 ltac:(done)). simpl in Hsz1, Hn.
    rewrite valid_from_skip in Hv by lia.
    assert (unquote_from true 0
              (quote_from true 0 (drop (size - 1) t) +:+ String "034" rest)
            = Some (drop (size - 1) t, rest)) as Hrest.
    { apply IH; [|done]. rewrite length_drop. lia. }
    destruct (is_line_sep c) eqn:Hsep.
    + destruct (DecodeRune_line_sep _ _ _ _ Hb Hd Hsep) as [-> Heq].
      rewrite quote_from_skip by lia. cbn [Nat.sub] in *.
      rewrite str_app_assoc, unquote_line_sep by done. rewrite Hrest. simpl.
      by rewrite Heq.
    + rewrite quote_from_copy by lia. rewrite app_cons, str_app_assoc.
      rewrite unquote_rune by done.
      rewrite (DecodeRune_prefix _ _ _ _ _ Hd Hill), Hill.
      rewrite <- (length_take (size - 1) t) at 1 by lia.
      rewrite unquote_from_copy, Hrest. simpl.
      by rewrite take_drop.
Qed.

Lemma parse_string_appendString s rest :
  ValidString s = true →
  appendString s +:+ rest =
    String "034" (quote_from true 0 s +:+ String "034" rest) ∧
  parse_string (quote_from true 0 s +:+ String "034" rest) = Some (s, rest).
Proof.
  intros Hv. split.
  - unfold appendString. by rewrite app_cons, str_app_assoc.
  - by apply (unquote_quote_bounded (String.length s)).
Qed.

(** ** Values *)

Lemma parse_value_unfold n s :
  parse_value (S n) s =
    match skip_space s with
    | String c t =>
      match c with
      | "034" => '(x, r) ← parse_string t; Some (Str x, r)
      | "[" =>
        match skip_space t with
        | String "]" r => Some (Array [], r)
        | _ => '(l, r) ← parse_elements n t; Some (Array l, r)
        end
      | "{" =>
        match skip_space t with
        | String "}" r => Some (Object [], r)
        | _ => '(l, r) ← parse_members n t; Some (Object l, r)
        end
      | "t" => r ← starts_with "rue" t; Some (Bool true, r)
      | "f" => r ← starts_with "alse" t; Some (Bool false, r)
      | "n" => r ← starts_with "ull" t; Some (Null, r)
      | _ => '(lit, r) ← parse_number (String c t); Some (Number lit, r)
      end
    | EmptyString => None
    end.
Proof. done. Qed.

Lemma parse_elements_unfold n s :
  parse_elements (S n) s =
    '(v, r) ← parse_value n s;
    match skip_space r with
    | String "," r' => '(l, r'') ← parse_elements n r'; Some (v :: l, r'')
    | String "]" r' => Some ([v], r')
    | _ => None
    end.
Proof. done. Qed.

Lemma parse_members_unfold n s :
  parse_members (S n) s =
    match skip_space s with
    | String "034" t =>
      '(k, r) ← parse_string t;
      match skip_space r with
      | String ":" r1 =>
        '(v, r2) ← parse_value n r1;
        match skip_space r2 with
        | String "," r3 => '(l, r4) ← parse_members n r3; Some ((k, v) :: l, r4)
        | String "}" r3 => Some ([(k, v)], r3)
        | _ => None
        end
      | _ => None
      end
    | _ => None
    end.
Proof. done. Qed.

Lemma skip_space_nospace c t :
  isSpace c = false → skip_space (String c t) = String c t.
Proof. intros Hc. simpl. by rewrite Hc. Qed.

Lemma parse_value_string n s rest :
  ValidString s = true →
  parse_value (S n) (appendString s +:+ rest) = Some (Str s, rest).
Proof.
  intros Hv. destruct (parse_string_appendString s rest Hv) as [-> Hp].
  rewrite parse_value_unfold, skip_space_nospace by done.
  cbv beta iota. by rewrite Hp.
Qed.

#[local] Arguments appendString : simpl never.
#[local] Arguments join_with : simpl never.
#[local] Arguments parse_value : simpl never.
#[local] Arguments parse_elements : simpl never.
#[local] Arguments parse_members : simpl never.
#[local] Arguments parse_string : simpl never.
#[local] Arguments skip_space : simpl never.

Lemma join_with_one sep x : join_with sep [x] = x.
Proof. done. Qed.

Lemma join_with_cons sep x y l :
  join_with sep (x :: y :: l) = x +:+ sep +:+ join_with sep (y :: l).
Proof. done. Qed.

(** The elements of an array of strings, up to the closing bracket. *)
Lemma parse_elements_strings l n rest :
  l ≠ [] → length l < n →
  Forall (λ s, ValidString s = true) l →
  parse_elements n (join_with "," (appendString <$> l) +:+ String "]" rest)
    = Some (Str <$> l, rest).
Proof.
  revert n. induction l as [|x l IH]; intros n Hne Hn Hv; [done|].
  apply Forall_cons in Hv as [Hx Hl]. simpl in Hn.
  destruct n as [|[|n]]; [lia..|]. rewrite parse_elements_unfold.
  destruct l as [|y l].
  - rewrite fmap_cons, fmap_nil, join_with_one.
    by rewrite parse_value_string by done.
  - rewrite fmap_cons, fmap_cons, join_with_cons, <- fmap_cons.
    rewrite !str_app_assoc, parse_value_string by done. simpl.
    rewrite IH; [done|done|simpl in *; lia|done].
Qed.

#[local] Arguments encode_member : simpl never.

(** One member of an object: its key, the colon and its value. *)
Lemma parse_members_step n k X v r2 :
  ValidString k = true →
  parse_value n X = Some (v, r2) →
  parse_members (S n) (appendString k +:+ String ":" X) =
    match skip_space r2 with
    | String "," r3 => '(l, r4) ← parse_members n r3; Some ((k, v) :: l, r4)
    | String "}" r3 => Some ([(k, v)], r3)
    | _ => None
    end.
Proof.
  intros Hk Hv. destruct (parse_string_appendString k (String ":" X) Hk) as [-> Hp].
  rewrite parse_members_unfold, skip_space_nospace by done. cbv beta iota.
  rewrite Hp. simpl. by rewrite Hv.
Qed.

Lemma parse_members_entries l n rest :
  l ≠ [] → length l < n →
  Forall (λ kv, ValidString kv.1 = true ∧ ValidString kv.2 = true) l →
  parse_members n (join_with "," (encode_member <$> l) +:+ String "}" rest)
    = Some ((λ kv, (kv.1, Str kv.2)) <$> l, rest).
Proof.
  revert n. induction l as [|[k v] l IH]; intros n Hne Hn Hv; [done|].
  apply Forall_cons in Hv as [[Hk Hx] Hl]. simpl in Hn, Hk, Hx.
  destruct n as [|[|n]]; [lia..|].
  destruct l as [|y l].
  - rewrite fmap_cons, fmap_nil, join_with_one. unfold encode_member at 1.
    cbn [fst snd]. rewrite !str_app_assoc, app_cons, app_nil_l.
    by rewrite (parse_members_step _ _ _ (Str v) (String "}" rest))
      by (done || by apply parse_value_string).
  - rewrite fmap_cons, fmap_cons, join_with_cons, <- fmap_cons.
    unfold encode_member at 1. cbn [fst snd].
    rewrite !str_app_assoc, app_cons, app_nil_l.
    rewrite (parse_members_step _ _ _ (Str v)
               (String "," (join_with "," (encode_member <$> y :: l)
                            +:+ String "}" rest)))
      by (done || (rewrite app_cons, app_nil_l; by apply parse_value_string)).
    simpl. rewrite IH; [done|done|simpl in *; lia|done].
Qed.

#[local] Arguments encode_strings : simpl never.
#[local] Arguments encode_map : simpl never.

Lemma appendString_head s rest :
  ∃ t, appendString s +:+ rest = String "034" t.
Proof. unfold appendString. rewrite app_cons. by eexists. Qed.

Lemma join_with_head {A} (f : A → string) x l rest :
  (∀ y r, ∃ t, f y +:+ r = String "034" t) →
  ∃ t, join_with "," (f <$> x :: l) +:+ rest = String "034" t.
Proof.
  intros Hf. destruct l as [|y l].
  - rewrite fmap_cons, fmap_nil, join_with_one. apply Hf.
  - rewrite fmap_cons, fmap_cons, join_with_cons, str_app_assoc. apply Hf.
Qed.

Lemma encode_member_head kv r : ∃ t, encode_member kv +:+ r = String "034" t.
Proof. unfold encode_member. rewrite str_app_assoc. apply appendString_head. Qed.

(** A [[]string] as a JSON value. *)
Lemma parse_value_strings a n rest :
  len a + 1 < n →
  Forall (λ s, ValidString s = true) (elems a) →
  parse_value n (encode_strings a +:+ rest) =
    Some (match a with None => Null | Some l => Array (Str <$> l) end, rest).
Proof.
  intros Hn Hv. destruct n as [|n]; [lia|]. rewrite parse_value_unfold.
  destruct a as [l|]; [|done]. unfold encode_strings.
  rewrite !str_app_assoc, app_cons, app_nil_l, skip_space_nospace by done.
  cbv beta iota. destruct l as [|x l]; [done|].
  destruct (join_with_head appendString x l (String "]" rest) appendString_head)
    as [t Ht].
  rewrite app_cons, app_nil_l. rewrite Ht at 1.
  rewrite skip_space_nospace by done. cbv beta iota.
  rewrite parse_elements_strings; [done|done|simpl in *; lia|done].
Qed.

(** A [map[string]string] as a JSON value: its entries in the order they
    are written. *)
Lemma parse_value_map m n rest :
  match m with None => 0 | Some m => size m end + 1 < n →
  (∀ m', m = Some m' →
     map_Forall (λ k v, ValidString k = true ∧ ValidString v = true) m') →
  parse_value n (encode_map m +:+ rest) =
    Some (match m with
          | None => Null
          | Some m => Object ((λ kv, (kv.1, Str kv.2)) <$> sorted_entries m)
          end, rest).
Proof.
  intros Hn Hv. destruct n as [|n]; [lia|]. rewrite parse_value_unfold.
  destruct m as [m|]; [|done]. unfold encode_map.
  rewrite !str_app_assoc, app_cons, app_nil_l, skip_space_nospace by done.
  cbv beta iota.
  assert (sorted_entries m ≡ₚ map_to_list m) as Hperm
    by apply merge_sort_Permutation.
  destruct (sorted_entries m) as [|kv l] eqn:Hl; [done|].
  destruct (join_with_head encode_member kv l (String "}" rest) encode_member_head)
    as [t Ht].
  rewrite app_cons, app_nil_l. rewrite Ht at 1.
  rewrite skip_space_nospace by done. cbv beta iota.
  rewrite parse_members_entries; [done|done| |].
  - rewrite Hperm, length_map_to_list. lia.
  - rewrite Hperm. apply Forall_forall. intros [k v] Hin.
    apply elem_of_map_to_list in Hin. by apply (Hv m eq_refl k v).
Qed.

(** ** Storing the parsed values *)

Lemma store_strings_strs old l : store_strings old (Str <$> l) = (l, None).
Proof.
  revert old. induction l as [|x l IH]; intros old; [done|].
  rewrite fmap_cons. cbn [store_strings store_string]. by rewrite IH.
Qed.

Lemma store_map_strs m0 (l : list (string * string)) :
  store_map m0 ((λ kv, (kv.1, Str kv.2)) <$> l) =
    (foldl (λ m kv, <[kv.1 := kv.2]> m) m0 l, None).
Proof.
  revert m0. induction l as [|[k v] l IH]; intros m0; [done|].
  rewrite fmap_cons. cbn [store_map store_string fst snd]. by rewrite IH.
Qed.

Lemma foldl_insert_list_to_map (l : list (string * string)) :
  foldl (λ m kv, <[kv.1 := kv.2]> m) (∅ : gmap string string) l =
    list_to_map (reverse l).
Proof.
  induction l as [|[k v] l IH] using rev_ind; [done|].
  by rewrite foldl_snoc, reverse_snoc, list_to_map_cons, IH.
Qed.

Lemma foldl_insert_sorted_entries (m : gmap string string) :
  foldl (λ m kv, <[kv.1 := kv.2]> m) ∅ (sorted_entries m) = m.
Proof.
  rewrite foldl_insert_list_to_map. symmetry. apply list_to_map_flip.
  rewrite reverse_Permutation. symmetry. apply merge_sort_Permutation.
Qed.

(** ** Lengths: the turns that [parse] allows are enough *)

Lemma length_appendString s : 2 ≤ String.length (appendString s).
Proof. unfold appendString. simpl. rewrite length_app. simpl. lia. Qed.

Lemma length_join_with {A} (f : A → string) l :
  (∀ x, 1 ≤ String.length (f x)) →
  length l ≤ String.length (join_with "," (f <$> l)).
Proof.
  intros Hf. induction l as [|x [|y l] IH]; [simpl; lia| |].
  - rewrite fmap_cons, fmap_nil, join_with_one. simpl. apply Hf.
  - rewrite fmap_cons, fmap_cons, join_with_cons, <- fmap_cons.
    rewrite !length_app. specialize (Hf x). simpl in *. lia.
Qed.

Lemma length_encode_strings a : len a ≤ String.length (encode_strings a).
Proof.
  destruct a as [l|]; [|simpl; lia]. unfold encode_strings.
  rewrite !length_app. simpl.
  pose proof (length_join_with appendString l) as Hl.
  specialize (Hl ltac:(intros x; pose proof (length_appendString x); lia)). lia.
Qed.

Lemma length_encode_map m :
  match m with None => 0 | Some m => size m end ≤ String.length (encode_map m).
Proof.
  destruct m as [m|]; [|simpl; lia]. unfold encode_map.
  rewrite !length_app. simpl.
  pose proof (length_join_with encode_member (sorted_entries m)) as Hl.
  assert (length (sorted_entries m) = size m) as Hsz.
  { unfold sorted_entries. by rewrite merge_sort_Permutation, length_map_to_list. }
  assert (∀ kv, 1 ≤ String.length (encode_member kv)) as Hm.
  { intros kv. unfold encode_member. rewrite length_app.
    pose proof (length_appendString kv.1). lia. }
  specialize (Hl Hm). lia.
Qed.

(** ** The packet *)

Import Wire.

Lemma store_member_Type p t :
  store_member p "Type" (Str t) = (Packet t (Args p) (Map p), None).
Proof. done. Qed.

Lemma store_member_Args p a :
  store_member p "Args" (match a with None => Null | Some l => Array (Str <$> l) end)
    = (Packet (Type_ p) a (Map p), None).
Proof.
  destruct a as [l|]; [|done].
  change (store_member p "Args" (Array (Str <$> l)))
    with (let '(xs, e) := store_strings (elems (Args p)) (Str <$> l) in
          (Packet (Type_ p) (Some xs) (Map p), e)).
  by rewrite store_strings_strs.
Qed.

Lemma store_member_Map p (m : option (gmap string string)) :
  Map p = None →
  store_member p "Map"
    (match m with
     | None => Null
     | Some m => Object ((λ kv, (kv.1, Str kv.2)) <$> sorted_entries m)
     end)
    = (Packet (Type_ p) (Args p) m, None).
Proof.
  intros Hp. destruct m as [m|]; [|done].
  change (store_member p "Map" (Object ((λ kv, (kv.1, Str kv.2)) <$> sorted_entries m)))
    with (let '(m', e) := store_map (default ∅ (Map p))
                            ((λ kv, (kv.1, Str kv.2)) <$> sorted_entries m) in
          (Packet (Type_ p) (Args p) (Some m'), e)).
  by rewrite Hp, store_map_strs, foldl_insert_sorted_entries.
Qed.

Lemma parse_Marshal p n :
  valid_utf8 p →
  len (Args p) + match Map p with None => 0 | Some m => size m end + 6 ≤ n →
  parse_value n (Marshal p) =
    Some (Object
            [("Type"%string, Str (Type_ p));
             ("Args"%string,
              match Args p with None => Null | Some l => Array (Str <$> l) end);
             ("Map"%string,
              match Map p with
              | None => Null
              | Some m => Object ((λ kv, (kv.1, Str kv.2)) <$> sorted_entries m)
              end)],
          EmptyString).
Proof.
  intros (Ht & Ha & Hm) Hn.
  destruct n as [|[|[|[|n]]]]; [lia..|].
  unfold Marshal. rewrite parse_value_unfold.
  rewrite !app_cons, !app_nil_l, skip_space_nospace by done. cbv beta iota.
  match goal with
  | |- context [skip_space (appendString ?k +:+ ?r)] =>
    destruct (appendString_head k r) as [t0 Ht0]; rewrite Ht0 at 1
  end.
  rewrite skip_space_nospace by done. cbv beta iota.
  rewrite (parse_members_step _ "Type" _ (Str (Type_ p))
             (String "," (appendString "Args" +:+
                String ":" (encode_strings (Args p) +:+
                  String "," (appendString "Map" +:+
                    String ":" (encode_map (Map p) +:+ String "}" EmptyString))))))
    by (done || by apply parse_value_string).
  simpl.
  rewrite (parse_members_step _ "Args" _
             (match Args p with None => Null | Some l => Array (Str <$> l) end)
             (String "," (appendString "Map" +:+
                String ":" (encode_map (Map p) +:+ String "}" EmptyString))))
    by (done || (apply parse_value_strings; [lia|done])).
  simpl.
  rewrite (parse_members_step _ "Map" _
             (match Map p with
              | None => Null
              | Some m => Object ((λ kv, (kv.1, Str kv.2)) <$> sorted_entries m)
              end)
             (String "}" EmptyString)); [done|done|].
  apply parse_value_map; [destruct (Map p); lia|].
  intros m' Hm'. by rewrite Hm' in Hm.
Qed.

Lemma length_Marshal p :
  len (Args p) + match Map p with None => 0 | Some m => size m end + 6
    ≤ 2 * String.length (Marshal p) + 2.
Proof.
  unfold Marshal. rewrite !length_app.
  pose proof (length_encode_strings (Args p)).
  pose proof (length_encode_map (Map p)).
  pose proof (length_appendString "Type"). simpl String.length. lia.
Qed.

Lemma parse_Marshal_whole p :
  valid_utf8 p →
  parse (Marshal p) =
    Some (Object
            [("Type"%string, Str (Type_ p));
             ("Args"%string,
              match Args p with None => Null | Some l => Array (Str <$> l) end);
             ("Map"%string,
              match Map p with
              | None => Null
              | Some m => Object ((λ kv, (kv.1, Str kv.2)) <$> sorted_entries m)
              end)]).
Proof.
  intros Hv. unfold parse.
  by rewrite (parse_Marshal p _ Hv (length_Marshal p)).
Qed.

Lemma Unmarshal_Marshal_valid p :
  valid_utf8 p → Unmarshal (Marshal p) = (p, None).
Proof.
  intros Hv. unfold Unmarshal. rewrite (parse_Marshal_whole p Hv).
  cbv beta iota. unfold store_members.
  rewrite store_member_Type, store_member_Args, store_member_Map by done.
  by destruct p.
Qed.

(** X1: a packet whose strings are well-formed UTF-8 comes back from its
    wire form as it was: the type, the arguments (nil or not) and the map
    (nil or not), and the decoder reports no error. *)
Theorem wire_round_trip p :
  valid_utf8 p → Unmarshal (Marshal p) = (p, None).
Proof. apply Unmarshal_Marshal_valid. Qed.

(** X16: [newPacket] loses no argument: the type followed by [Args] is
    the argument list and the map is made; when the arguments are
    well-formed UTF-8 the packet comes back from the wire as it was. *)
Theorem newPacket_keeps_arguments args :
  args ≠ [] →
  Type_ (newPacket args) :: elems (Args (newPacket args)) = args ∧
  Map (newPacket args) = Some ∅ ∧
  (Forall (λ s, ValidString s = true) args →
   Unmarshal (Marshal (newPacket args)) = (newPacket args, None)).
Proof.
  intros Hne. destruct args as [|t [|a l]]; [done|..]; split_and!; try done.
  - intros Hv. apply Unmarshal_Marshal_valid.
    apply Forall_cons in Hv as [Ht _].
    split_and!; try done; intros k v Hkv; by rewrite lookup_empty in Hkv.
  - intros Hv. apply Unmarshal_Marshal_valid.
    apply Forall_cons in Hv as [Ht Hl].
    split_and!; try done; intros k v Hkv; by rewrite lookup_empty in Hkv.
Qed.

(** A byte that is no UTF-8 is not kept: it comes back as U+FFFD. *)
Example ill_formed_byte_replaced :
  Unmarshal (Marshal (Packet (String "255" EmptyString) None None)) =
    (Packet (EncodeRune RuneError) None None, None).
Proof. compute_done. Qed.

End CodecFacts.

(** * Facts *)

Section Facts.
Context `{Env}.

Implicit Types (w : world) (P : event → bool).

(** ** Worlds in sequence *)

Lemma after_refl P w : after P w w.
Proof.
  split; [done|]. exists []. by rewrite app_nil_r.
Qed.

Lemma after_trans P w1 w2 w3 : after P w1 w2 → after P w2 w3 → after P w1 w3.
Proof.
  intros [Hi1 (t1 & Ht1 & Hp1)] [Hi2 (t2 & Ht2 & Hp2)]. split.
  - by etrans.
  - exists (t1 ++ t2). rewrite Ht2, Ht1, <- app_assoc. split; [done|].
    rewrite forallb_app, Hp1, Hp2. done.
Qed.

Lemma after_weaken P Q w w' :
  (∀ ev, P ev = true → Q ev = true) → after P w w' → after Q w w'.
Proof.
  intros HPQ [Hi (t & Ht & Hp)]. split; [done|]. exists t. split; [done|].
  apply forallb_forall. intros ev Hev.
  apply HPQ. by eapply forallb_forall in Hp.
Qed.

Lemma io_after_refl w : io_after w w.
Proof. split; [apply after_refl | done]. Qed.

Lemma io_after_trans w1 w2 w3 : io_after w1 w2 → io_after w2 w3 → io_after w1 w3.
Proof.
  intros (Ha1 & Hu1 & Hs1) (Ha2 & Hu2 & Hs2). split.
  - by eapply after_trans.
  - split; congruence.
Qed.

Lemma keeps_ret (R : world → world → Prop) {A} (a : A) :
  (∀ w, R w w) → keeps R (ret a).
Proof. intros Hrefl w. apply Hrefl. Qed.

Lemma keeps_bind (R : world → world → Prop) {A B} (m : M A) (k : A → M B) :
  (∀ w1 w2 w3, R w1 w2 → R w2 w3 → R w1 w3) →
  keeps R m → (∀ a, keeps R (k a)) → keeps R (bind m k).
Proof.
  intros Htrans Hm Hk w. unfold bind. specialize (Hm w).
  destruct (m w) as [a w1]. simpl in Hm. eapply Htrans; [done|]. apply Hk.
Qed.

(** ** The socket *)

Lemma WriteJSON_io p : keeps io_after (WriteJSON p).
Proof.
  intros w. unfold WriteJSON, io_after, after. simpl. split_and!; try done.
  exists [Sent p (next_write w)]. done.
Qed.

Lemma next_frame_spec w :
  (inbox w = [] ∧ next_frame w = (inl EOF, w)) ∨
  (∃ f rest, inbox w = f :: rest ∧
     next_frame w = (f, World rest (wfail w) (trace w) (cuser w) (store w))).
Proof.
  unfold next_frame. destruct (inbox w) as [|f rest]; [by left|].
  right. by exists f, rest.
Qed.

Lemma recieve_io : keeps io_after recieve.
Proof.
  intros w. unfold recieve, bind.
  destruct (next_frame_spec w) as [[Hnil ->]|(f & rest & Hin & ->)]; simpl.
  - unfold io_after, after. simpl. split_and!; try done.
    exists [Received (inl EOF)]. done.
  - unfold io_after, after. simpl. split_and!; try done.
    + rewrite Hin. by apply suffix_cons_r.
    + exists [Received f]. done.
Qed.

Ltac keeps_step R_refl R_trans :=
  first
    [ apply keeps_bind; [apply R_trans | | intros ? ]
    | apply keeps_ret; apply R_refl
    | match goal with
      | |- keeps _ (match ?x with _ => _ end) => destruct x
      | |- keeps _ (if ?b then _ else _) => destruct b
      end ].

Ltac keeps_io :=
  repeat first
    [ apply WriteJSON_io | apply recieve_io
    | keeps_step io_after_refl io_after_trans ].

Lemma appendMsg_io selector text : keeps io_after (appendMsg selector text).
Proof. unfold appendMsg. keeps_io. Qed.

Lemma innerHTML_io selector value : keeps io_after (innerHTML selector value).
Proof. unfold innerHTML. keeps_io. Qed.

Lemma setAttribute_io selector a v : keeps io_after (setAttribute selector a v).
Proof. unfold setAttribute. keeps_io. Qed.

Lemma exists_io selector : keeps io_after (exists_ selector).
Proof. unfold exists_. keeps_io. Qed.

Lemma getHTML_io selector : keeps io_after (getHTML selector).
Proof. unfold getHTML. keeps_io; apply exists_io. Qed.

Lemma getAttribute_io selector a : keeps io_after (getAttribute selector a).
Proof. unfold getAttribute. keeps_io. Qed.

Lemma getProperty_io selector a : keeps io_after (getProperty selector a).
Proof. unfold getProperty. keeps_io. Qed.

Lemma prompt_io text : keeps io_after (prompt text).
Proof. unfold prompt. keeps_io; apply appendMsg_io. Qed.

Lemma promptSecure_io selector text : keeps io_after (promptSecure selector text).
Proof.
  unfold promptSecure.
  repeat first
    [ apply getAttribute_io | apply setAttribute_io | apply prompt_io
    | keeps_step io_after_refl io_after_trans ].
Qed.

(** ** The handlers *)

Lemma io_after_any w w' : io_after w w' → after any_event w w'.
Proof. intros [Ha _]. by eapply after_weaken. Qed.

Lemma keeps_io_any {A} (m : M A) : keeps io_after m → keeps (after any_event) m.
Proof. intros Hm w. apply io_after_any, Hm. Qed.

Lemma load_any name pass : keeps (after any_event) (load name pass).
Proof.
  intros w. unfold load.
  destruct (user_load _ _ _ _) as [[u st] e]. simpl. split; [done|].
  by exists [Load name pass e].
Qed.

Lemma save_any name pass : keeps (after any_event) (save name pass).
Proof.
  intros w. unfold save.
  destruct (user_save _ _ _ _) as [[u st] e]. simpl. split; [done|].
  by exists [Save name pass e].
Qed.

Lemma get_user_io : keeps io_after get_user.
Proof. intros w. apply io_after_refl. Qed.

Lemma get_store_io : keeps io_after get_store.
Proof. intros w. apply io_after_refl. Qed.

Lemma set_user_any name email : keeps (after any_event) (set_user name email).
Proof.
  intros w. split; [done|]. exists []. simpl. by rewrite app_nil_r.
Qed.

Ltac keeps_any :=
  repeat
    lazymatch goal with
    | |- keeps _ (appendMsg _ _) => apply keeps_io_any, appendMsg_io
    | |- keeps _ (innerHTML _ _) => apply keeps_io_any, innerHTML_io
    | |- keeps _ (prompt _) => apply keeps_io_any, prompt_io
    | |- keeps _ (promptSecure _ _) => apply keeps_io_any, promptSecure_io
    | |- keeps _ get_user => apply keeps_io_any, get_user_io
    | |- keeps _ get_store => apply keeps_io_any, get_store_io
    | |- keeps _ (load _ _) => apply load_any
    | |- keeps _ (save _ _) => apply save_any
    | |- keeps _ (set_user _ _) => apply set_user_any
    | |- keeps _ (bind _ _) =>
      apply keeps_bind; [apply (after_trans any_event) | | intros ? ]
    | |- keeps _ (ret _) => apply keeps_ret; apply (after_refl any_event)
    | |- keeps _ (match ?x with _ => _ end) => destruct x
    | |- keeps _ (let _ := _ in _) => cbv zeta
    end.

Lemma help_any args : keeps (after any_event) (help args).
Proof. unfold help. keeps_any. Qed.

Lemma clear_any args : keeps (after any_event) (clear args).
Proof. unfold clear. keeps_any. Qed.

Lemma login_any args : keeps (after any_event) (login args).
Proof. unfold login. keeps_any. Qed.

Lemma register_any args : keeps (after any_event) (register args).
Proof. unfold register. keeps_any. Qed.

Lemma cmdMap_handlers a0 cmd :
  cmdMap !! a0 = Some cmd →
  Handler cmd = register ∨ Handler cmd = login ∨ Handler cmd = clear ∨ Handler cmd = help.
Proof.
  unfold cmdMap. intros Hl.
  repeat (apply lookup_insert_Some in Hl as [[_ <-]|[_ Hl]]; [simpl; auto|]).
  by rewrite lookup_empty in Hl.
Qed.

Lemma handler_any a0 cmd args :
  cmdMap !! a0 = Some cmd → keeps (after any_event) (Handler cmd args).
Proof.
  intros Hl. destruct (cmdMap_handlers _ _ Hl) as [-> | [-> | [-> | ->]]];
    auto using register_any, login_any, clear_any, help_any.
Qed.

(** ** The read loop *)

Lemma readPacket_nil w :
  inbox w = [] → readPacket w = ((Wire.zero, Some EOF), log (Read (inl EOF)) w).
Proof.
  intros Hnil. unfold readPacket, bind, next_frame. by rewrite Hnil.
Qed.

Lemma readPacket_cons w f rest :
  inbox w = f :: rest →
  readPacket w =
    (match f with
     | inr m => Wire.Unmarshal m
     | inl e => (Wire.zero, Some e)
     end, took f rest w).
Proof.
  intros Hin. unfold readPacket, bind, next_frame. by rewrite Hin.
Qed.

Lemma listener_turn_shrinks w w' u :
  listener_turn w = (Some u, w') → length (inbox w') < length (inbox w).
Proof.
  unfold listener_turn, bind.
  destruct (inbox w) as [|f rest] eqn:Hin.
  - rewrite (readPacket_nil _ Hin). simpl. discriminate.
  - rewrite (readPacket_cons _ _ _ Hin).
    destruct (match f with inr m => _ | inl e => _ end) as [p [e|]]; [discriminate|].
    destruct (elems (Wire.Args p)) as [|a0 l]; [discriminate|].
    set (m := match cmdMap !! a0 with Some cmd => _ | None => _ end).
    assert (keeps (after any_event) m) as Hm.
    { subst m. destruct (cmdMap !! a0) as [cmd|] eqn:Hl.
      - by eapply handler_any.
      - apply keeps_io_any, appendMsg_io. }
    specialize (Hm (took f rest w)). destruct (m (took f rest w)) as [x w2].
    simpl in *. intros [= _ <-]. destruct Hm as [Hsuf _].
    apply suffix_length in Hsuf. simpl in *. lia.
Qed.

Lemma listener_loop_enough n w :
  length (inbox w) < n → ∃ w', listener_loop n w = Some (None, w').
Proof.
  revert w. induction n as [|n IH]; intros w Hn; [lia|]. simpl.
  destruct (listener_turn w) as [[u|] w1] eqn:Hturn; [|by eexists].
  apply IH. apply listener_turn_shrinks in Hturn. lia.
Qed.

Lemma listener_loop_fuel n m w :
  length (inbox w) < n → length (inbox w) < m →
  listener_loop n w = listener_loop m w.
Proof.
  revert m w. induction n as [|n IH]; intros [|m] w Hn Hm; try lia. simpl.
  destruct (listener_turn w) as [[u|] w1] eqn:Hturn; [|done].
  apply listener_turn_shrinks in Hturn. apply IH; lia.
Qed.

(** [listener] returns, and what it returns is nil. *)
Lemma listener_total w : ∃ w', listener w = Some (None, w').
Proof. apply listener_loop_enough. lia. Qed.

Lemma listener_unfold w :
  listener w =
    match listener_turn w with
    | (Some _, w') => listener w'
    | (None, w') => Some (None, w')
    end.
Proof.
  unfold listener at 1. simpl.
  destruct (listener_turn w) as [[u|] w1] eqn:Hturn; [|done].
  apply listener_turn_shrinks in Hturn. apply listener_loop_fuel; lia.
Qed.

Lemma readPacket_any : keeps (after any_event) readPacket.
Proof.
  intros w. destruct (inbox w) as [|f rest] eqn:Hin.
  - rewrite (readPacket_nil _ Hin). simpl. split; [done|].
    by exists [Read (inl EOF)].
  - rewrite (readPacket_cons _ _ _ Hin). simpl. split.
    + rewrite Hin. by apply suffix_cons_r.
    + by exists [Read f].
Qed.

Lemma listener_turn_any : keeps (after any_event) listener_turn.
Proof.
  unfold listener_turn. apply keeps_bind; [apply after_trans|apply readPacket_any|].
  intros [p e]. destruct e; [apply keeps_ret, after_refl|].
  destruct (elems (Wire.Args p)) as [|a0 l]; [apply keeps_ret, after_refl|].
  apply keeps_bind; [apply after_trans| |intros; apply keeps_ret, after_refl].
  destruct (cmdMap !! a0) as [cmd|] eqn:Hl.
  - by eapply handler_any.
  - apply keeps_io_any, appendMsg_io.
Qed.

Lemma listener_loop_after n w r w' :
  listener_loop n w = Some (r, w') → r = None ∧ after any_event w w'.
Proof.
  revert w. induction n as [|n IH]; intros w; [done|]. simpl.
  pose proof (listener_turn_any w) as Hturn.
  destruct (listener_turn w) as [[u|] w1]; simpl in Hturn.
  - intros Hloop. destruct (IH _ Hloop) as [-> Hafter]. split; [done|].
    by eapply after_trans.
  - by intros [= <- <-].
Qed.

(** A turn of the loop starts with a read: whatever it does comes after
    the frame was taken, or after the end of the stream was seen. *)
Lemma listener_turn_read w :
  after any_event
    (match inbox w with
     | [] => log (Read (inl EOF)) w
     | f :: rest => took f rest w
     end) (listener_turn w).2.
Proof.
  unfold listener_turn, bind. destruct (inbox w) as [|f rest] eqn:Hin.
  - rewrite (readPacket_nil _ Hin). apply after_refl.
  - rewrite (readPacket_cons _ _ _ Hin).
    destruct (match f with inr m => _ | inl e => _ end) as [p [e|]];
      [apply after_refl|].
    destruct (elems (Wire.Args p)) as [|a0 l]; [apply after_refl|].
    set (m := match cmdMap !! a0 with Some cmd => _ | None => _ end).
    assert (keeps (after any_event) m) as Hm.
    { subst m. destruct (cmdMap !! a0) as [cmd|] eqn:Hl.
      - by eapply handler_any.
      - apply keeps_io_any, appendMsg_io. }
    specialize (Hm (took f rest w)). by destruct (m (took f rest w)) as [x w2].
Qed.

(** The loop returns nil, and the first thing it does is to read: the
    first event it adds is the read of the first frame of the stream (of
    its end when there is none), and that frame is gone from the stream. *)
Lemma listener_reads_on w :
  ∃ wf more,
    listener w = Some (None, wf) ∧
    trace wf = trace w ++ Read (default (inl EOF) (head (inbox w))) :: more ∧
    inbox wf `suffix_of` tail (inbox w).
Proof.
  destruct (listener_total w) as [wf Hwf]. exists wf.
  assert (after any_event (listener_turn w).2 wf) as Hrest.
  { rewrite listener_unfold in Hwf.
    destruct (listener_turn w) as [[u|] w1]; simpl.
    - by apply listener_loop_after in Hwf as [_ ?].
    - injection Hwf as <-. apply after_refl. }
  pose proof (after_trans _ _ _ _ (listener_turn_read w) Hrest) as [Hsuf [t [Ht _]]].
  exists t. split; [done|].
  destruct (inbox w) as [|f rest] eqn:Hin; simpl in *.
  - rewrite Hin in Hsuf. by rewrite Ht, <- app_assoc.
  - by rewrite Ht, <- app_assoc.
Qed.

(** ** The queries *)

Lemma WriteJSON_eq p w : WriteJSON p w = (next_write w, wrote p w).
Proof. done. Qed.

Lemma recieve_cons w f rest :
  inbox w = f :: rest →
  recieve w =
    (match f with
     | inr m => (m, None)
     | inl e => (EmptyString, Some e)
     end, World rest (wfail w) (trace w ++ [Received f]) (cuser w) (store w)).
Proof.
  intros Hin. unfold recieve, bind, next_frame. by rewrite Hin.
Qed.







(** The loop goes on in the world that the handler leaves. *)
Lemma listener_dispatch w m rest p a0 l cmd :
  inbox w = inr m :: rest →
  Wire.Unmarshal m = (p, None) →
  Wire.Args p = Some (a0 :: l) →
  cmdMap !! a0 = Some cmd →
  listener w = listener (Handler cmd (a0 :: l) (took (inr m) rest w)).2.
Proof.
  intros Hin Hp Hargs Hcmd. rewrite listener_unfold at 1.
  unfold listener_turn, bind. rewrite (readPacket_cons _ _ _ Hin), Hp, Hargs.
  simpl. rewrite Hcmd. by destruct (Handler cmd _ _).
Qed.


(** C2: a command packet whose first argument is no key of [cmdMap] makes
    the loop write the message [<name>: command not found] to the client
    and go on with the rest of the stream, whatever became of the write:
    the turn does not end the loop, the next thing the loop does is to
    read the next frame of the stream, a registered command found there is
    given to its handler, and [listener] returns nil at the end. *)
Theorem unknown_command_reported w m rest p a0 l :
  inbox w = inr m :: rest →
  Wire.Unmarshal m = (p, None) →
  Wire.Args p = Some (a0 :: l) →
  cmdMap !! a0 = None →
  let w' :=
    World rest (tail (wfail w))
      (trace w ++ [Read (inr m);
                   Sent (appendMsg_packet "#msgList" (a0 +:+ ": command not found "))
                     (next_write w)])
      (cuser w) (store w) in
  listener_turn w = (Some tt, w') ∧
  ∃ wf more,
    listener w = Some (None, wf) ∧
    listener w' = Some (None, wf) ∧
    trace wf = trace w' ++ Read (default (inl EOF) (head rest)) :: more ∧
    inbox wf `suffix_of` tail rest ∧
    (∀ m2 rest2 p2 b0 l2 cmd,
       rest = inr m2 :: rest2 →
       Wire.Unmarshal m2 = (p2, None) →
       Wire.Args p2 = Some (b0 :: l2) →
       cmdMap !! b0 = Some cmd →
       listener (Handler cmd (b0 :: l2) (took (inr m2) rest2 w')).2
         = Some (None, wf)).
Proof.
  intros Hin Hp Hargs Hcmd w'.
  assert (listener_turn w = (Some tt, w')) as Hturn.
  { unfold listener_turn, bind. rewrite (readPacket_cons _ _ _ Hin), Hp, Hargs.
    simpl. rewrite Hcmd. unfold appendMsg. rewrite WriteJSON_eq.
    unfold w', wrote, WriteJSON, took, next_write. simpl.
    by rewrite <- app_assoc. }
  split; [done|].
  destruct (listener_reads_on w') as (wf & more & Hwf & Htrace & Hsuf).
  exists wf, more. split_and!; try done.
  - by rewrite listener_unfold, Hturn.
  - intros m2 rest2 p2 b0 l2 cmd -> Hp2 Hargs2 Hcmd2. rewrite <- Hwf.
    symmetry. by eapply listener_dispatch.
Qed.

(** C9: a frame that decodes to a packet without arguments ends the loop:
    [listener] returns, nothing was dispatched and nothing was written. *)
Theorem empty_args_end_loop w m rest p :
  inbox w = inr m :: rest →
  Wire.Unmarshal m = (p, None) →
  len (Wire.Args p) = 0 →
  listener w =
    Some (None,
          World rest (wfail w) (trace w ++ [Read (inr m)]) (cuser w) (store w)).
Proof.
  intros Hin Hp Hlen. rewrite listener_unfold.
  unfold listener_turn, bind. rewrite (readPacket_cons _ _ _ Hin), Hp.
  assert (elems (Wire.Args p) = []) as ->; [|done].
  destruct (Wire.Args p) as [[|a l]|]; done.
Qed.

(** ** [promptSecure] *)

Lemma io_after_trace w w' :
  io_after w w' → ∃ t, trace w' = trace w ++ t ∧ forallb is_io t = true.
Proof. by intros [[_ Ht] _]. Qed.

(** C4: once [getAttribute] returned the value [attr] of the attribute
    without error, the last thing [promptSecure] does is to write the
    [setAttribute] packet that sets the attribute to [attr] again: after
    the prompt when the attribute could be set to [password], and right
    after the failed write when it could not.  The errors of the prompt
    and of that write end up in the result and keep nothing from it. *)
Theorem promptSecure_restores selector text w attr w1 :
  getAttribute selector "type" w = ((attr, None), w1) →
  ∃ r wb t,
    promptSecure selector text w =
      (r, wrote (setAttribute_packet selector "type" attr) wb) ∧
    trace (wrote (setAttribute_packet selector "type" attr) wb) =
      trace w1
        ++ Sent (setAttribute_packet selector "type" "password") (next_write w1) :: t
        ++ [Sent (setAttribute_packet selector "type" attr) (next_write wb)] ∧
    forallb is_io t = true ∧
    match next_write w1 with
    | None =>
      prompt text (wrote (setAttribute_packet selector "type" "password") w1) = (r, wb)
    | Some e => r = (EmptyString, Some e) ∧ t = []
    end.
Proof.
  intros Hget. unfold promptSecure, bind. rewrite Hget.
  unfold setAttribute at 1. rewrite WriteJSON_eq.
  destruct (next_write w1) as [e|] eqn:Hw1.
  - eexists (EmptyString, Some e), _, []. unfold ret, setAttribute.
    rewrite WriteJSON_eq. split_and!; try done.
    unfold wrote, WriteJSON. simpl. by rewrite Hw1, <- app_assoc.
  - pose proof (prompt_io text
      (wrote (setAttribute_packet selector "type" "password") w1)) as Hio.
    destruct (prompt text _) as [r wb] eqn:Hprompt. simpl in Hio.
    apply io_after_trace in Hio as (t & Ht & Hall).
    exists r, wb, t. unfold setAttribute. rewrite WriteJSON_eq.
    split_and!; [done| |done|done].
    change (trace (wrote (setAttribute_packet selector "type" attr) wb))
      with (trace wb ++ [Sent (setAttribute_packet selector "type" attr) (next_write wb)]).
    rewrite Ht.
    change (trace (wrote (setAttribute_packet selector "type" "password") w1))
      with (trace w1 ++ [Sent (setAttribute_packet selector "type" "password") (next_write w1)]).
    by rewrite Hw1, <- !app_assoc.
Qed.

(** ** [getHTML] *)

Lemma exists_events selector w :
  (exists_ selector w).1 = false ∧
  trace (exists_ selector w).2 =
    trace w ++ [Sent (exists_packet selector) (next_write w)]
  ∨ ∃ f, next_write w = None ∧
      trace (exists_ selector w).2 =
        trace w ++ [Sent (exists_packet selector) None; Received f].
Proof.
  unfold exists_, bind. rewrite WriteJSON_eq.
  destruct (next_write w) as [e|] eqn:Hw.
  - left. simpl. unfold wrote, WriteJSON. simpl. by rewrite Hw.
  - right. unfold recieve, bind.
    destruct (next_frame (wrote (exists_packet selector) w)) as [f w1] eqn:Hf.
    exists f. split; [done|].
    assert (trace w1 = trace w ++ [Sent (exists_packet selector) None]) as Htr.
    { unfold next_frame in Hf. destruct (inbox _); simplify_eq; simpl;
        by rewrite Hw. }
    destruct f as [e|m]; simpl; by rewrite Htr, <- app_assoc.
Qed.

Lemma exists_true_inv selector w w1 :
  exists_ selector w = (true, w1) →
  next_write w = None ∧
  ∃ rest, inbox w = inr "true" :: rest ∧
    w1 = answered (exists_packet selector) "true" rest w.
Proof.
  unfold exists_, bind. rewrite WriteJSON_eq.
  destruct (next_write w) as [e|] eqn:Hw; [by intros [=]|].
  intros Hex. split; [done|].
  destruct (inbox w) as [|f rest] eqn:Hin.
  - revert Hex. unfold recieve, bind, next_frame, wrote, WriteJSON. simpl.
    rewrite Hin. simpl. by intros [=].
  - revert Hex. rewrite (recieve_cons _ f rest) by done.
    destruct f as [e|m]; simpl; [by intros [=]|].
    intros [= Hm <-]. apply bool_decide_eq_true in Hm as ->.
    exists rest. split; [done|].
    unfold answered, wrote, WriteJSON. simpl. by rewrite Hw, <- app_assoc.
Qed.

(** C10: [getHTML] starts with the [exists] query for the selector.  When
    that query gives false, the result is the error [element does not
    exist] and no [getHTML] packet was written; a result without error
    means that the write of the query went through and that its answer
    was the text [true]. *)
Theorem getHTML_asks_exists_first selector w :
  (∃ t, trace (getHTML selector w).2 =
          trace w ++ Sent (exists_packet selector) (next_write w) :: t) ∧
  (∀ w1, exists_ selector w = (false, w1) →
     getHTML selector w =
       ((EmptyString, Some (ErrorString "element does not exist")), w1) ∧
     ∃ t, trace w1 = trace w ++ t ∧ ∀ r, Sent (getHTML_packet selector) r ∉ t) ∧
  (∀ s w', getHTML selector w = ((s, None), w') →
     next_write w = None ∧
     ∃ rest, inbox w = inr "true" :: rest ∧
       exists_ selector w =
         (true, answered (exists_packet selector) "true" rest w)).
Proof.
  split_and!.
  - unfold getHTML, bind.
    pose proof (exists_events selector w) as Hev.
    destruct (exists_ selector w) as [ok w1]. simpl in Hev.
    assert (∃ t1, trace w1 =
              trace w ++ Sent (exists_packet selector) (next_write w) :: t1)
      as [t1 Ht1].
    { destruct Hev as [[_ ->]|(f & Hw & ->)]; [by exists []|].
      rewrite Hw. by eexists. }
    destruct ok; [|by exists t1].
    rewrite WriteJSON_eq.
    pose proof (WriteJSON_io (getHTML_packet selector) w1) as Hio1.
    apply io_after_trace in Hio1 as (t2 & Ht2 & _). fold (wrote (getHTML_packet selector) w1) in Ht2.
    destruct (next_write w1).
    + exists (t1 ++ t2). unfold ret. cbn [snd].
      by rewrite Ht2, Ht1, <- app_assoc.
    + pose proof (recieve_io (wrote (getHTML_packet selector) w1)) as Hio2.
      apply io_after_trace in Hio2 as (t3 & Ht3 & _).
      destruct (recieve _) as [[b e'] w3]. unfold ret. cbn [snd] in *.
      exists (t1 ++ t2 ++ t3). by rewrite Ht3, Ht2, Ht1, <- !app_assoc.
  - intros w1 Hex. split.
    + unfold getHTML, bind. by rewrite Hex.
    + pose proof (exists_events selector w) as Hev. rewrite Hex in Hev.
      simpl in Hev. destruct Hev as [[_ ->]|(f & _ & ->)]; eexists; split; try done.
      * intros r Hin. apply list_elem_of_singleton in Hin. discriminate.
      * intros r Hin. apply elem_of_cons in Hin as [Hin|Hin]; [discriminate|].
        apply list_elem_of_singleton in Hin. discriminate.
  - intros s w' Hget. unfold getHTML, bind in Hget.
    destruct (exists_ selector w) as [[] w1] eqn:Hex; [|discriminate].
    apply exists_true_inv in Hex as (Hw & rest & Hin & ->). eauto.
Qed.

(** ** [login] and [register] *)

(** C6: [login] with a well-formed name that has no account writes the
    message [User does not exist] and does nothing else: no attribute is
    read or set, no prompt is shown, no frame is taken, [load] is not
    called. *)
Theorem login_unknown_user cname name more w :
  isName name = true →
  pathExists (store w) (users +:+ SEP +:+ indexPath name) = false →
  login (cname :: name :: more) w =
    (next_write w,
     World (inbox w) (tail (wfail w))
       (trace w ++ [Sent (appendMsg_packet "#msg-list" "User does not exist")
                      (next_write w)])
       (cuser w) (store w)).
Proof.
  intros Hname Hpath. unfold login. rewrite Hname.
  unfold bind, get_store. by rewrite Hpath.
Qed.

(** C5: when the name and the address are accepted and both password
    prompts return without error but with different texts, [register]
    writes the message [Failed! Passwords did not match] as its last
    action; [save] was not called (every event of the run is a packet
    written or a frame taken by a prompt) and neither the store nor the
    user record has changed. *)
Theorem register_mismatch_not_saved cname name more w email w1 pass1 w2 pass2 w3 :
  isName name = true →
  prompt "Enter your email address" w = ((email, None), w1) →
  isEmail email = true →
  promptSecure "#msg-txt" "Enter a good password" w1 = ((pass1, None), w2) →
  promptSecure "#msg-txt" "Re-enter your password" w2 = ((pass2, None), w3) →
  pass1 ≠ pass2 →
  let said := appendMsg_packet "#msg-list" "Failed! Passwords did not match" in
  register (cname :: name :: more) w = (None, wrote said w3) ∧
  store (wrote said w3) = store w ∧
  cuser (wrote said w3) = cuser w ∧
  ∃ t, trace (wrote said w3) = trace w ++ t ++ [Sent said (next_write w3)] ∧
       forallb is_io t = true.
Proof.
  intros Hname Hmail Hok Hp1 Hp2 Hne said.
  pose proof (prompt_io "Enter your email address" w) as Hio1.
  pose proof (promptSecure_io "#msg-txt" "Enter a good password" w1) as Hio2.
  pose proof (promptSecure_io "#msg-txt" "Re-enter your password" w2) as Hio3.
  rewrite Hmail in Hio1. rewrite Hp1 in Hio2. rewrite Hp2 in Hio3.
  cbn [snd] in Hio1, Hio2, Hio3.
  pose proof (io_after_trans _ _ _ (io_after_trans _ _ _ Hio1 Hio2) Hio3)
    as ([_ (t & Ht & Hall)] & Hu & Hs).
  split_and!.
  - unfold register. rewrite Hname. unfold bind. rewrite Hmail.
    rewrite Hok. cbn [andb bool_decide decide_rel]. 
    rewrite bool_decide_true by done. cbn [andb]. rewrite Hp1, Hp2.
    rewrite bool_decide_true by done. rewrite (bool_decide_false (pass1 = pass2)) by done.
    cbn [andb]. unfold appendMsg. by rewrite WriteJSON_eq.
  - done.
  - done.
  - exists t. split; [|done].
    change (trace (wrote said w3)) with (trace w3 ++ [Sent said (next_write w3)]).
    by rewrite Ht, <- app_assoc.
Qed.

Lemma io_after_user w w' : io_after w w' → cuser w' = cuser w.
Proof. by intros (_ & Hu & _). Qed.

Lemma load_eq name pass w :
  ∃ u st e,
    user_load (cuser w) name pass (store w) = (u, st, e) ∧
    load name pass w =
      (e, World (inbox w) (wfail w) (trace w ++ [Load name pass e]) u st).
Proof.
  unfold load. destruct (user_load _ _ _ _) as [[u st] e]. by exists u, st, e.
Qed.

Lemma save_eq name pass w :
  ∃ u st e,
    save name pass w =
      (e, World (inbox w) (wfail w) (trace w ++ [Save name pass e]) u st).
Proof.
  unfold save. destruct (user_save _ _ _ _) as [[u st] e]. by exists u, st, e.
Qed.

Lemma login_keeps_user args w t :
  (∀ u n p st, (user_load u n p st).2 ≠ None → (user_load u n p st).1.1 = u) →
  trace (login args w).2 = trace w ++ t →
  (∀ n p, Load n p None ∉ t) →
  cuser (login args w).2 = cuser w.
Proof.
  intros Hkeep. unfold login.
  destruct args as [|cname [|name more]];
    [done | intros; apply io_after_user, appendMsg_io |].
  destruct (isName name); [|intros; apply io_after_user, appendMsg_io].
  unfold bind, get_store.
  destruct (pathExists _ _); [|intros; apply io_after_user, appendMsg_io].
  pose proof (promptSecure_io "#msg-txt" "Please enter your password" w) as Hio.
  destruct (promptSecure _ _ w) as [[pass e] w1]. cbn [snd] in Hio.
  pose proof (io_after_trace _ _ Hio) as (t1 & Ht1 & _).
  apply io_after_user in Hio as Hu1.
  destruct (bool_decide (e = None) && bool_decide (0 < String.length pass));
    [|by intros].
  destruct (load_eq name pass w1) as (u & st & e' & Hload & ->).
  set (w2 := World _ _ _ u st).
  destruct e' as [err|].
  - intros _ _.
    pose proof (appendMsg_io "#msg-list" "Login failed" w2) as Hio2.
    destruct (appendMsg _ _ w2) as [x w3]. unfold ret. cbn [snd] in *.
    rewrite (io_after_user _ _ Hio2). subst w2. cbn [cuser].
    specialize (Hkeep (cuser w1) name pass (store w1)).
    rewrite Hload in Hkeep. cbn [fst snd] in Hkeep. rewrite Hkeep by done. done.
  - intros Ht Hno. exfalso. unfold get_user in Ht.
    pose proof (appendMsg_io "#msg-list" ("Welcome back, " +:+ Name (cuser w2)) w2)
      as Hio2.
    destruct (appendMsg _ _ w2) as [x w3]. unfold ret in Ht. cbn [snd] in *.
    apply io_after_trace in Hio2 as (t2 & Ht2 & _).
    rewrite Ht2 in Ht. subst w2. cbn [trace] in Ht. rewrite Ht1 in Ht.
    rewrite <- !app_assoc in Ht. apply app_inv_head in Ht. subst t.
    apply (Hno name pass). set_solver.
Qed.

Lemma register_keeps_user args w t :
  trace (register args w).2 = trace w ++ t →
  (∀ n p r, Save n p r ∉ t) →
  cuser (register args w).2 = cuser w.
Proof.
  unfold register.
  destruct args as [|cname [|name more]];
    [intros; apply io_after_user, appendMsg_io ..|].
  destruct (isName name); [|intros; apply io_after_user, appendMsg_io].
  unfold bind.
  pose proof (prompt_io "Enter your email address" w) as Hio.
  destruct (prompt _ w) as [[email e] w1]. cbn [snd] in Hio.
  destruct (bool_decide (e = None) && isEmail email).
  2:{ intros _ _.
      pose proof (appendMsg_io "#msg-list" "Bad email address" w1) as Hio2.
      destruct (appendMsg _ _ w1) as [x w2]. unfold ret. cbn [snd] in *.
      apply io_after_user. by eapply io_after_trans. }
  pose proof (promptSecure_io "#msg-txt" "Enter a good password" w1) as Hio2.
  destruct (promptSecure _ _ w1) as [[pass1 e1] w2]. cbn [snd] in Hio2.
  pose proof (io_after_trans _ _ _ Hio Hio2) as Hio12.
  destruct e1 as [err|]; [intros; by apply io_after_user|].
  pose proof (promptSecure_io "#msg-txt" "Re-enter your password" w2) as Hio3.
  destruct (promptSecure _ _ w2) as [[pass2 e2] w3]. cbn [snd] in Hio3.
  pose proof (io_after_trans _ _ _ Hio12 Hio3) as Hio123.
  destruct (bool_decide (e2 = None) && bool_decide (pass1 = pass2)).
  2:{ intros _ _.
      pose proof (appendMsg_io "#msg-list" "Failed! Passwords did not match" w3)
        as Hio4.
      destruct (appendMsg _ _ w3) as [x w4]. unfold ret. cbn [snd] in *.
      apply io_after_user. by eapply io_after_trans. }
  intros Ht Hno. exfalso. unfold set_user in Ht.
  set (w4 := World _ _ _ (User name email) _) in Ht.
  destruct (save_eq name pass1 w4) as (u & st & e' & Hsave).
  rewrite Hsave in Ht. set (w5 := World _ _ _ u st) in Ht.
  apply io_after_trace in Hio123 as (t1 & Ht1 & _).
  assert (∃ t2, t = t1 ++ Save name pass1 e' :: t2) as [t2 ->].
  { destruct e' as [err|];
      match type of Ht with
      | context [appendMsg ?a ?b w5] =>
        destruct (io_after_trace _ _ (appendMsg_io a b w5)) as (t2 & Ht2 & _);
        destruct (appendMsg a b w5) as [x w6]
      end;
      unfold ret in Ht; cbn [snd] in *; rewrite Ht2 in Ht;
      subst w5 w4; cbn [trace] in Ht; rewrite Ht1 in Ht;
      rewrite <- !app_assoc in Ht; apply app_inv_head in Ht; by exists t2. }
  apply (Hno name pass1 e'). set_solver.
Qed.

(** C8, as the code has it: [login] leaves [c.user] as it was unless a
    [load] succeeded (a [load] that fails being one that leaves the record
    it is called on alone), and [register] leaves it as it was unless it
    went as far as the call of [save]. *)
Theorem identity_kept_without_store_call :
  (∀ u n p st, (user_load u n p st).2 ≠ None → (user_load u n p st).1.1 = u) →
  (∀ args w t,
     trace (login args w).2 = trace w ++ t →
     (∀ n p, Load n p None ∉ t) →
     cuser (login args w).2 = cuser w) ∧
  (∀ args w t,
     trace (register args w).2 = trace w ++ t →
     (∀ n p r, Save n p r ∉ t) →
     cuser (register args w).2 = cuser w).
Proof.
  intros Hkeep. split.
  - intros. by eapply login_keeps_user.
  - intros. by eapply register_keeps_user.
Qed.

(** ** More of the read loop *)

(** X3: [listener] returns on every stream, and what it returns is nil:
    no error of a read, of a handler or of a write reaches its caller.
    Frames were only taken off the front of the stream, events were only
    added. *)
Theorem listener_always_nil w :
  ∃ w', listener w = Some (None, w') ∧ after any_event w w'.
Proof.
  destruct (listener_total w) as [w' Hw']. exists w'. split; [done|].
  by apply listener_loop_after in Hw' as [_ ?].
Qed.

(** X4: a frame that cannot be read, or whose text does not decode to a
    packet, ends the loop: nothing is dispatched, nothing is written, and
    [listener] returns nil all the same. *)
Theorem unreadable_frame_ends_loop w f rest :
  inbox w = f :: rest →
  match f with
  | inl _ => True
  | inr m => (Wire.Unmarshal m).2 ≠ None
  end →
  listener w = Some (None, took f rest w).
Proof.
  intros Hin Hbad. rewrite listener_unfold.
  unfold listener_turn, bind. rewrite (readPacket_cons _ _ _ Hin).
  destruct f as [e|m]; [done|].
  destruct (Wire.Unmarshal m) as [p [e|]]; [done|]. by simpl in Hbad.
Qed.

(** ** More of the queries *)

Lemma recieve_eq w :
  recieve w =
    match inbox w with
    | [] => ((EmptyString, Some EOF), log (Received (inl EOF)) w)
    | f :: rest =>
      (match f with
       | inr m => (m, None)
       | inl e => (EmptyString, Some e)
       end, World rest (wfail w) (trace w ++ [Received f]) (cuser w) (store w))
    end.
Proof.
  destruct (inbox w) as [|f rest] eqn:Hin; [|by apply recieve_cons].
  unfold recieve, bind, next_frame. by rewrite Hin.
Qed.

(** X5: [exists] gives true exactly when its packet could be written and
    the next frame is the text [true]; a failed write, a closed stream, a
    failed read and any other answer all give false. *)
Theorem exists_true_iff selector w :
  (exists_ selector w).1 = true ↔
  next_write w = None ∧ head (inbox w) = Some (inr "true").
Proof.
  unfold exists_, bind. rewrite WriteJSON_eq.
  destruct (next_write w) as [e|] eqn:Hw; [by split; [|intros []]|].
  rewrite recieve_eq.
  change (inbox (wrote (exists_packet selector) w)) with (inbox w).
  destruct (inbox w) as [|[e|m] rest]; simpl.
  - by split; [|intros [_ ?]].
  - by split; [|intros [_ ?]].
  - split.
    + intros Hm. apply bool_decide_eq_true in Hm as ->. done.
    + intros [_ [= ->]]. by apply bool_decide_eq_true.
Qed.

(** X6: the error that [getAttribute] and [getProperty] return is the
    result of their write and nothing else.  When the write fails no frame
    is taken; when it goes through and the stream is closed or the read
    fails, the call returns the empty text without an error. *)
Theorem query_error_is_write_error selector name w :
  (getAttribute selector name w).1.2 = next_write w ∧
  (getProperty selector name w).1.2 = next_write w ∧
  (next_write w ≠ None →
     inbox (getAttribute selector name w).2 = inbox w ∧
     inbox (getProperty selector name w).2 = inbox w) ∧
  (next_write w = None → (∀ m, head (inbox w) ≠ Some (inr m)) →
     (getAttribute selector name w).1 = (EmptyString, None) ∧
     (getProperty selector name w).1 = (EmptyString, None)).
Proof.
  unfold getAttribute, getProperty, bind. rewrite !WriteJSON_eq.
  destruct (next_write w) as [e|] eqn:Hw.
  - split_and!; try done.
  - rewrite !recieve_eq.
    change (inbox (wrote ?p w)) with (inbox w).
    destruct (inbox w) as [|[e|m] rest]; simpl; split_and!; try done.
    intros _ Hno. by destruct (Hno m).
Qed.

(** X7: the error that [prompt] returns is the error of the receive: the
    result of writing the text is dropped, and the next frame is taken
    whether or not the text could be written. *)
Theorem prompt_error_is_receive_error text w :
  (prompt text w).1 =
    match inbox w with
    | [] => (EmptyString, Some EOF)
    | inl e :: _ => (EmptyString, Some e)
    | inr m :: _ => (m, None)
    end ∧
  inbox (prompt text w).2 = tail (inbox w).
Proof.
  unfold prompt, bind.
  assert (∃ p, (if bool_decide (0 < String.length text)
                then appendMsg "#msg-list" text
                else appendMsg "#msg-list" "Enter some input:") w
               = (next_write w, wrote p w)) as [p ->].
  { destruct (bool_decide _); by eexists. }
  rewrite recieve_eq. change (inbox (wrote p w)) with (inbox w).
  destruct (inbox w) as [|[e|m] rest] eqn:Hin; simpl; by rewrite ?Hin.
Qed.

(** ** More of the commands *)

Lemma cmdMap_Desc a : Desc <$> cmdMap !! a = cmdDesc !! a.
Proof.
  unfold cmdMap, cmdDesc.
  rewrite !lookup_insert. repeat case_decide; rewrite ?lookup_empty; done.
Qed.

(** X8: [help <name>] writes the description that [cmdMap] holds for the
    name, for every name the loop would dispatch, and writes [Command not
    available: <name>] for every other name. *)
Theorem help_describes_registered_commands c0 a more w :
  help (c0 :: a :: more) w =
    appendMsg "#msg-list"
      (match cmdMap !! a with
       | Some cmd => Desc cmd
       | None => "Command not available: " +:+ a
       end) w.
Proof.
  unfold help. rewrite <- cmdMap_Desc. by destruct (cmdMap !! a).
Qed.

(** X9: [help] alone lists every key of [cmdMap] once, each after a space,
    in the order in which the [range] loop visits them. *)
Theorem help_lists_every_command c0 w :
  (∀ l : list string, rangeOrder l ≡ₚ l) →
  ∃ keys,
    keys ≡ₚ (map_to_list cmdMap).*1 ∧
    help [c0] w =
      appendMsg "#msg-list" ("Available commands:" +:+ key_list keys) w.
Proof.
  intros Hperm. exists (rangeOrder (map_to_list cmdDesc).*1). split; [|done].
  rewrite Hperm. apply NoDup_Permutation.
  - apply NoDup_fst_map_to_list.
  - apply NoDup_fst_map_to_list.
  - intros k. rewrite !list_elem_of_fmap. split.
    + intros ([k' d] & -> & Hin). apply elem_of_map_to_list in Hin.
      simpl in *. rewrite <- cmdMap_Desc in Hin.
      destruct (cmdMap !! k') as [cmd|] eqn:Hc; [|done].
      exists (k', cmd). split; [done|]. by apply elem_of_map_to_list.
    + intros ([k' cmd] & -> & Hin). apply elem_of_map_to_list in Hin.
      simpl in *. pose proof (cmdMap_Desc k') as Hd. rewrite Hin in Hd.
      exists (k', Desc cmd). split; [done|]. by apply elem_of_map_to_list.
Qed.

(** X10: once the name is well-formed, [register] returns nil whatever
    happens to its prompts, to [save] and to its writes; so does [login]
    once the account exists; [clear] returns nil always. *)
Theorem handlers_drop_errors c0 name more w :
  isName name = true →
  (register (c0 :: name :: more) w).1 = None ∧
  (pathExists (store w) (users +:+ SEP +:+ indexPath name) = true →
   (login (c0 :: name :: more) w).1 = None) ∧
  (∀ args, (clear args w).1 = None).
Proof.
  intros Hname. split_and!.
  - unfold register. rewrite Hname. unfold bind.
    destruct (prompt _ w) as [[email e] w1].
    by destruct (_ w1).
  - intros Hpath. unfold login. rewrite Hname. unfold bind, get_store.
    rewrite Hpath. destruct (promptSecure _ _ w) as [[pass e] w1].
    by destruct (_ w1).
  - intros [|a args]; [done|]. unfold clear, bind.
    by destruct (innerHTML _ _ w).
Qed.

(** X11: [login] for an account that exists, when the masked prompt gives
    a password that is not empty: [load] is called once with the name and
    that password; when it succeeds the user of the session is the one it
    loaded and the line [Welcome back, <Name>] is written, when it fails
    the line [Login failed] is written. *)
Theorem login_loads_account c0 name more w pass w1 u st e :
  isName name = true →
  pathExists (store w) (users +:+ SEP +:+ indexPath name) = true →
  promptSecure "#msg-txt" "Please enter your password" w = ((pass, None), w1) →
  0 < String.length pass →
  user_load (cuser w1) name pass (store w1) = (u, st, e) →
  let w2 := World (inbox w1) (wfail w1) (trace w1 ++ [Load name pass e]) u st in
  login (c0 :: name :: more) w =
    (None,
     wrote (appendMsg_packet "#msg-list"
              (match e with
               | None => "Welcome back, " +:+ Name u
               | Some _ => "Login failed"
               end)) w2).
Proof.
  intros Hname Hpath Hprompt Hlen Hload w2.
  unfold login. rewrite Hname. unfold bind, get_store. rewrite Hpath, Hprompt.
  rewrite bool_decide_true by done. rewrite bool_decide_true by done.
  cbn [andb]. unfold load. rewrite Hload. fold w2.
  destruct e as [err|]; unfold appendMsg, get_user, ret;
    by rewrite WriteJSON_eq.
Qed.

(** X12: [login] is silent when the masked prompt fails or gives the empty
    text: [load] is not called and nothing is written after the prompt. *)
Theorem login_silent_without_password c0 name more w pass e w1 :
  isName name = true →
  pathExists (store w) (users +:+ SEP +:+ indexPath name) = true →
  promptSecure "#msg-txt" "Please enter your password" w = ((pass, e), w1) →
  e ≠ None ∨ pass = EmptyString →
  login (c0 :: name :: more) w = (None, w1).
Proof.
  intros Hname Hpath Hprompt Hbad.
  unfold login. rewrite Hname. unfold bind, get_store. rewrite Hpath, Hprompt.
  destruct Hbad as [He| ->].
  - by rewrite bool_decide_false by done.
  - rewrite (bool_decide_false (0 < String.length EmptyString)) by (simpl; lia).
    by rewrite andb_false_r.
Qed.

(** X13: [register], when the name and the address are accepted and the
    two passwords agree: the record of the session gets the name and the
    address, [save] is called on it with the name and the password, and
    the line written is [User account created ...] when [save] succeeds
    and the text of its error when it fails. *)
Theorem register_saves_account c0 name more w email w1 pass w2 w3 u st e :
  isName name = true →
  prompt "Enter your email address" w = ((email, None), w1) →
  isEmail email = true →
  promptSecure "#msg-txt" "Enter a good password" w1 = ((pass, None), w2) →
  promptSecure "#msg-txt" "Re-enter your password" w2 = ((pass, None), w3) →
  user_save (User name email) name pass (store w3) = (u, st, e) →
  let w4 := World (inbox w3) (wfail w3) (trace w3 ++ [Save name pass e]) u st in
  register (c0 :: name :: more) w =
    (None,
     wrote (appendMsg_packet "#msg-list"
              (match e with
               | None => "User account created (don't forget your password!)"
               | Some err => Error err
               end)) w4).
Proof.
  intros Hname Hmail Hok Hp1 Hp2 Hsave w4.
  unfold register. rewrite Hname. unfold bind. rewrite Hmail, Hok.
  rewrite bool_decide_true by done. cbn [andb]. rewrite Hp1, Hp2.
  rewrite !bool_decide_true by done. cbn [andb].
  unfold set_user, save. cbn [cuser store inbox wfail trace]. rewrite Hsave.
  fold w4. destruct e as [err|]; unfold appendMsg, ret; by rewrite WriteJSON_eq.
Qed.

(** X14: the directives and the queries of cmd.go act on the socket only:
    they write packets and take frames off the front of the stream, and
    leave the user of the session and the store as they are. *)
Theorem directives_act_on_socket_only selector a b c :
  keeps io_after (appendMsg selector a) ∧
  keeps io_after (appendLink selector a b) ∧
  keeps io_after (appendBreak selector) ∧
  keeps io_after (focus selector a) ∧
  keeps io_after (exists_ selector) ∧
  keeps io_after (innerHTML selector a) ∧
  keeps io_after (getHTML selector) ∧
  keeps io_after (setAttribute selector a b) ∧
  keeps io_after (getAttribute selector a) ∧
  keeps io_after (setProperty selector a b) ∧
  keeps io_after (getProperty selector a) ∧
  keeps io_after (editable selector a) ∧
  keeps io_after (prompt c) ∧
  keeps io_after (promptSecure selector c).
Proof.
  split_and!;
    auto using appendMsg_io, exists_io, innerHTML_io, getHTML_io,
      setAttribute_io, getAttribute_io, getProperty_io, prompt_io,
      promptSecure_io;
    apply WriteJSON_io.
Qed.

(** X15: [wsHandler] serves a connection only when its origin is the
    expected one and the greeting could be written: otherwise no frame is
    taken off the stream, and with another origin nothing is written
    either.  It always returns. *)
Theorem wsHandler_serves_greeted_origin_only hostname addrs origin tls w :
  ∃ w', wsHandler hostname addrs origin tls w = Some w' ∧
    (origin ≠ "https://" +:+ hostname +:+ addrs → w' = w) ∧
    (next_write w ≠ None →
       inbox w' = inbox w ∧
       (origin = "https://" +:+ hostname +:+ addrs →
        trace w' =
          trace w ++ [Sent (appendMsg_packet "#msgList" ("SOCKET " +:+ checkTLS tls))
                        (next_write w)])).
Proof.
  unfold wsHandler. case_bool_decide as Ho.
  - exists w. by split_and!.
  - unfold appendMsg. rewrite WriteJSON_eq.
    change (next_write (World (inbox w) (wfail w) (trace w)
                          (User EmptyString EmptyString) (store w)))
      with (next_write w).
    destruct (next_write w) as [e|] eqn:Hw.
    + eexists. split; [done|]. split; [by intros Hne|].
      intros _. split; [done|]. intros _.
      unfold wrote, WriteJSON, next_write. simpl. unfold next_write in Hw.
      by rewrite Hw.
    + match goal with
      | |- context [listener ?w1] => destruct (listener_total w1) as [w' ->]
      end.
      exists w'. split; [done|]. split; [by intros Hne|]. by intros Hne.
Qed.

(** X2: a command packet whose strings are well-formed UTF-8, written to
    the wire by [Marshal] and read by the loop, reaches the handler that
    [cmdMap] holds for its first argument, with the arguments it was made
    of: the turn of the loop is the read followed by the run of the
    handler, whose result is dropped.  The loop goes on in the world the
    handler leaves: it reads the next frame there, and [listener] returns
    nil in a world that holds what the handler did. *)
Theorem marshalled_command_reaches_handler w p a0 l rest cmd :
  Wire.valid_utf8 p →
  Wire.Args p = Some (a0 :: l) →
  cmdMap !! a0 = Some cmd →
  inbox w = inr (Wire.Marshal p) :: rest →
  let wh := (Handler cmd (a0 :: l) (took (inr (Wire.Marshal p)) rest w)).2 in
  listener_turn w = (Some tt, wh) ∧
  after any_event (took (inr (Wire.Marshal p)) rest w) wh ∧
  ∃ wf more,
    listener w = Some (None, wf) ∧
    listener wh = Some (None, wf) ∧
    trace wf = trace wh ++ Read (default (inl EOF) (head (inbox wh))) :: more ∧
    inbox wf `suffix_of` tail (inbox wh).
Proof.
  intros Hv Hargs Hcmd Hin wh.
  pose proof (CodecFacts.Unmarshal_Marshal_valid p Hv) as Hp.
  assert (listener_turn w = (Some tt, wh)) as Hturn.
  { unfold listener_turn, bind. rewrite (readPacket_cons _ _ _ Hin), Hp, Hargs.
    simpl. rewrite Hcmd. subst wh. by destruct (Handler cmd _ _). }
  split; [done|]. split; [by eapply handler_any|].
  destruct (listener_reads_on wh) as (wf & more & Hwf & Htrace & Hsuf).
  exists wf, more. split_and!; try done.
  by rewrite listener_unfold, Hturn.
Qed.

(** X17: [promptSecure] when the attribute cannot be read.  When the write
    of the [getAttribute] packet fails, nothing else is done and the error
    of the write is returned.  When it goes through and the stream is
    closed, [getAttribute] reports no error and the empty text: the type
    is set to [password], the prompt fails with the end of the stream, and
    the attribute is set to the empty text at the end. *)
Theorem promptSecure_without_attribute selector text w :
  (∀ e, next_write w = Some e →
     promptSecure selector text w =
       ((EmptyString, Some e), wrote (getAttribute_packet selector "type") w)) ∧
  (wfail w = [] → inbox w = [] →
     (promptSecure selector text w).1 = (EmptyString, Some EOF) ∧
     ∃ shown,
       trace (promptSecure selector text w).2 =
         trace w ++
           [Sent (getAttribute_packet selector "type") None;
            Received (inl EOF);
            Sent (setAttribute_packet selector "type" "password") None;
            Sent (appendMsg_packet "#msg-list" shown) None;
            Received (inl EOF);
            Sent (setAttribute_packet selector "type" EmptyString) None]).
Proof.
  split.
  - intros e Hw. unfold promptSecure, getAttribute, bind.
    by rewrite WriteJSON_eq, Hw.
  - intros Hwf Hin. destruct w as [ib wf tr u st]. simpl in *. subst.
    unfold promptSecure, getAttribute, setAttribute, prompt, bind.
    split; [by destruct (bool_decide _)|].
    exists (if bool_decide (0 < String.length text)
            then text else "Enter some input:").
    destruct (bool_decide _); simpl; by rewrite <- !app_assoc.
Qed.

End Facts.

(** * The session run on a store held in memory *)

Import MemStore.

(** The frame that, read by the loop, would be the command [help]. *)
Lemma help_frame_is_command :
  Wire.Unmarshal (Wire.Marshal (Wire.Packet EmptyString (Some ["help"]) None))
    = (Wire.Packet EmptyString (Some ["help"]) None, None) ∧
  is_Some (cmdMap !! "help").
Proof. split; [compute_done|]. by eexists. Qed.


(** [login alice] answered by the type of the input box and then, as the
    password, by the frame of the command [help]: the frame is the
    password that [load] rejects, the loop reads the frame after it. *)
Example login_reply_not_dispatched :
  let m := Wire.Marshal (Wire.Packet EmptyString (Some ["help"]) None) in
  (λ r, (r.1, filter (λ ev, is_io ev = false) (trace r.2), cuser r.2)) <$>
    listener (start alice [cmd ["login"; "alice"]; inr "text"; inr m; cmd ["clear"]] [])
  = Some (None,
          [Read (cmd ["login"; "alice"]);
           Load "alice" m (Some (ErrorString "invalid credentials"));
           Read (cmd ["clear"]);
           Read (inl EOF)],
          User EmptyString EmptyString).
Proof. intros m. compute_done. Qed.

Lemma unknown_command_reported_witness :
  let w := start alice [cmd ["nope"]; cmd ["help"]] [] in
  ∃ wf more,
    listener w = Some (None, wf) ∧
    trace wf =
      [Read (cmd ["nope"]);
       Sent (appendMsg_packet "#msgList" "nope: command not found ") None;
       Read (cmd ["help"])] ++ more ∧
    listener (help ["help"]
                (took (cmd ["help"]) []
                   (World [cmd ["help"]] []
                      [Read (cmd ["nope"]);
                       Sent (appendMsg_packet "#msgList" "nope: command not found ")
                         None]
                      (User EmptyString EmptyString) alice))).2
      = Some (None, wf).
Proof.
  intros w.
  pose proof (unknown_command_reported w
                (Wire.Marshal (Wire.Packet EmptyString (Some ["nope"]) None))
                [cmd ["help"]] (Wire.Packet EmptyString (Some ["nope"]) None)
                "nope" []) as Hreport.
  destruct Hreport as (_ & wf & more & Hwf & _ & Htrace & _ & Hnext).
  - reflexivity.
  - compute_done.
  - reflexivity.
  - compute_done.
  - exists wf, more. split_and!; [done|done|].
    apply (Hnext (Wire.Marshal (Wire.Packet EmptyString (Some ["help"]) None)) []
             (Wire.Packet EmptyString (Some ["help"]) None) "help" []
             (Command "help returns help information about available commands."
                help)).
    + reflexivity.
    + compute_done.
    + reflexivity.
    + reflexivity.
Defined.

Lemma empty_args_end_loop_witness :
  let w := start alice [cmd []; cmd ["help"]] [] in
  listener w =
    Some (None,
          World [cmd ["help"]] [] [Read (cmd [])] (User EmptyString EmptyString) alice).
Proof.
  intros w.
  apply (empty_args_end_loop w
           (Wire.Marshal (Wire.Packet EmptyString (Some []) None))
           [cmd ["help"]] (Wire.Packet EmptyString (Some []) None)).
  - reflexivity.
  - compute_done.
  - reflexivity.
Defined.

(** C3 on the code: [register] without a name writes its usage line; the
    write fails and the handler returns the error of the transport.  The
    loop drops it: it reads and serves the next command, and when the
    stream ends [listener] returns nil. *)
Theorem handler_error_not_propagated :
  let w := start alice [cmd ["register"]; cmd ["help"]]
             [Some (TransportError "broken pipe")] in
  (register ["register"] (took (cmd ["register"]) [cmd ["help"]] w)).1
    = Some (TransportError "broken pipe") ∧
  (λ r, (r.1, trace r.2)) <$> listener w =
    Some (None,
          [Read (cmd ["register"]);
           Sent (appendMsg_packet "#msg-list" "Usage: register <name>")
             (Some (TransportError "broken pipe"));
           Read (cmd ["help"]);
           Sent (appendMsg_packet "#msg-list"
                   "Available commands: clear register login help") None;
           Read (inl EOF)]).
Proof. intros w. compute_done. Qed.

Lemma promptSecure_restores_witness :
  let w := start alice [inr "text"; inr "secret"] [None; Some (TransportError "broken pipe")] in
  ∃ r wb t,
    promptSecure "#msg-txt" "Please enter your password" w =
      (r, wrote (setAttribute_packet "#msg-txt" "type" "text") wb) ∧
    trace (wrote (setAttribute_packet "#msg-txt" "type" "text") wb) =
      [Sent (getAttribute_packet "#msg-txt" "type") None; Received (inr "text")]
        ++ Sent (setAttribute_packet "#msg-txt" "type" "password")
             (Some (TransportError "broken pipe")) :: t
        ++ [Sent (setAttribute_packet "#msg-txt" "type" "text") (next_write wb)] ∧
    forallb is_io t = true ∧
    r = (EmptyString, Some (TransportError "broken pipe")) ∧ t = [].
Proof.
  intros w.
  apply (promptSecure_restores "#msg-txt" "Please enter your password" w "text"
           (answered (getAttribute_packet "#msg-txt" "type") "text" [inr "secret"] w)).
  reflexivity.
Defined.

Lemma login_unknown_user_witness :
  login ["login"; "bob"] (start alice [inr "text"; inr "secret"] []) =
    (None,
     World [inr "text"; inr "secret"] []
       [Sent (appendMsg_packet "#msg-list" "User does not exist") None]
       (User EmptyString EmptyString) alice).
Proof.
  apply (login_unknown_user "login" "bob" []
           (start alice [inr "text"; inr "secret"] [])); reflexivity.
Defined.

Lemma register_mismatch_not_saved_witness :
  let w := start alice
             [inr "b@x.com"; inr "text"; inr "p1"; inr "text"; inr "p2"] [] in
  let w1 := (prompt "Enter your email address" w).2 in
  let w2 := (promptSecure "#msg-txt" "Enter a good password" w1).2 in
  let w3 := (promptSecure "#msg-txt" "Re-enter your password" w2).2 in
  let said := appendMsg_packet "#msg-list" "Failed! Passwords did not match" in
  register ["register"; "bob"] w = (None, wrote said w3) ∧
  store (wrote said w3) = store w ∧
  cuser (wrote said w3) = cuser w ∧
  ∃ t, trace (wrote said w3) = trace w ++ t ++ [Sent said (next_write w3)] ∧
       forallb is_io t = true.
Proof.
  intros w w1 w2 w3.
  assert (prompt "Enter your email address" w = (("b@x.com", None), w1)) as H1
    by compute_done.
  assert (promptSecure "#msg-txt" "Enter a good password" w1 = (("p1", None), w2))
    as H2 by compute_done.
  assert (promptSecure "#msg-txt" "Re-enter your password" w2 = (("p2", None), w3))
    as H3 by compute_done.
  exact (register_mismatch_not_saved "register" "bob" [] w "b@x.com" w1 "p1" w2
           "p2" w3 eq_refl H1 eq_refl H2 H3 ltac:(discriminate)).
Defined.

Lemma mem_load_fail_keeps u n p (st : accounts) :
  (mem_load u n p st).2 ≠ None → (mem_load u n p st).1.1 = u.
Proof.
  unfold mem_load. destruct (st !! path n) as [[pw u']|]; [|done].
  by destruct (bool_decide (pw = p)).
Qed.

Lemma identity_kept_without_store_call_witness :
  cuser (login ["login"; "alice"]
           (start alice [inr "text"; inr "wrong-pass"] [])).2
    = User EmptyString EmptyString.
Proof.
  destruct (@identity_kept_without_store_call env mem_load_fail_keeps) as [Hlogin _].
  apply (Hlogin ["login"; "alice"] (start alice [inr "text"; inr "wrong-pass"] [])
           [Sent (getAttribute_packet "#msg-txt" "type") None;
            Received (inr "text");
            Sent (setAttribute_packet "#msg-txt" "type" "password") None;
            Sent (appendMsg_packet "#msg-list" "Please enter your password") None;
            Received (inr "wrong-pass");
            Sent (setAttribute_packet "#msg-txt" "type" "text") None;
            Load "alice" "wrong-pass" (Some (ErrorString "invalid credentials"));
            Sent (appendMsg_packet "#msg-list" "Login failed") None]).
  - compute_done.
  - intros n p Hin.
    repeat (apply elem_of_cons in Hin as [Hin|Hin]; [discriminate|]).
    by apply elem_of_nil in Hin.
Defined.

(** C8 as stated fails: [register alice] with an address and the same
    password twice goes as far as [save]; the account exists, [save]
    fails, and [c.user] holds the name and the address all the same. *)
Lemma register_failed_save_changes_user :
  let w := start alice
             [inr "eve@x.com"; inr "text"; inr "p1"; inr "text"; inr "p1"] [] in
  let w' := (register ["register"; "alice"] w).2 in
  filter (λ ev, is_save ev = true) (trace w') =
    [Save "alice" "p1" (Some (ErrorString "user already exists"))] ∧
  store w' = store w ∧
  cuser w = User EmptyString EmptyString ∧
  cuser w' = User "alice" "eve@x.com".
Proof. intros w w'. compute_done. Qed.

Lemma getHTML_asks_exists_first_witness :
  let w := start alice [inr "false"; cmd ["help"]] [] in
  getHTML "#msg-list" w =
    ((EmptyString, Some (ErrorString "element does not exist")),
     answered (exists_packet "#msg-list") "false" [cmd ["help"]] w).
Proof.
  intros w.
  destruct (getHTML_asks_exists_first "#msg-list" w) as (_ & Hfalse & _).
  apply Hfalse. reflexivity.
Defined.

(** * More runs on the store held in memory *)

Lemma wire_round_trip_witness :
  let p := Wire.Packet "appendElement" (Some ["a<b"; "x & y"])
             (Some {[ "Selector" := "#msg-list"; "Text" := "back\slash and é" ]}) in
  Wire.Unmarshal (Wire.Marshal p) = (p, None).
Proof.
  intros p. apply (CodecFacts.wire_round_trip p). compute_done.
Defined.

Lemma newPacket_keeps_arguments_witness :
  Wire.Type_ (Wire.newPacket ["login"; "alice"])
    :: elems (Wire.Args (Wire.newPacket ["login"; "alice"])) = ["login"; "alice"].
Proof.
  destruct (CodecFacts.newPacket_keeps_arguments ["login"; "alice"]) as [Hargs _];
    done.
Defined.

Lemma marshalled_command_reaches_handler_witness :
  let w := start alice [cmd ["help"; "login"]; cmd ["clear"]] [] in
  let wh := (help ["help"; "login"]
               (took (cmd ["help"; "login"]) [cmd ["clear"]] w)).2 in
  listener_turn w = (Some tt, wh) ∧
  ∃ wf more,
    listener w = Some (None, wf) ∧
    trace wf = trace wh ++ Read (cmd ["clear"]) :: more.
Proof.
  intros w wh.
  pose proof (marshalled_command_reaches_handler w
                (Wire.Packet EmptyString (Some ["help"; "login"]) None)
                "help" ["login"] [cmd ["clear"]]
                (Command "help returns help information about available commands."
                   help)) as Hrun.
  destruct Hrun as (Hturn & _ & wf & more & Hwf & _ & Htrace & _).
  - compute_done.
  - reflexivity.
  - reflexivity.
  - reflexivity.
  - split; [exact Hturn|]. by exists wf, more.
Defined.

Lemma unreadable_frame_ends_loop_witness :
  let w := start alice [inr "help"; cmd ["clear"]] [] in
  listener w = Some (None, took (inr "help") [cmd ["clear"]] w).
Proof.
  intros w. apply (unreadable_frame_ends_loop w (inr "help") [cmd ["clear"]]).
  - reflexivity.
  - compute_done.
Defined.

Lemma help_lists_every_command_witness :
  ∃ keys,
    keys ≡ₚ (map_to_list (cmdMap (H := env))).*1 ∧
    help ["help"] (start alice [] []) =
      appendMsg "#msg-list" ("Available commands:" +:+ key_list keys)
        (start alice [] []).
Proof.
  apply (help_lists_every_command "help" (start alice [] [])).
  intros l. reflexivity.
Defined.

Lemma handlers_drop_errors_witness :
  (register ["register"; "bob"]
     (start alice [] [Some (TransportError "broken pipe")])).1 = None.
Proof.
  destruct (handlers_drop_errors "register" "bob" []
              (start alice [] [Some (TransportError "broken pipe")]) eq_refl)
    as [Hreg _].
  exact Hreg.
Defined.

Lemma login_loads_account_witness :
  let w := start alice [inr "text"; inr "secret"] [] in
  let w1 := (promptSecure "#msg-txt" "Please enter your password" w).2 in
  let w2 := World (inbox w1) (wfail w1)
              (trace w1 ++ [Load "alice" "secret" None])
              (User "alice" "alice@example.org") alice in
  login ["login"; "alice"] w =
    (None, wrote (appendMsg_packet "#msg-list" ("Welcome back, " +:+ "alice")) w2).
Proof.
  intros w w1 w2.
  assert (promptSecure "#msg-txt" "Please enter your password" w
          = (("secret", None), w1)) as Hprompt by compute_done.
  assert (user_load (cuser w1) "alice" "secret" (store w1)
          = (User "alice" "alice@example.org", alice, None)) as Hload
    by compute_done.
  exact (login_loads_account "login" "alice" [] w "secret" w1
           (User "alice" "alice@example.org") alice None
           eq_refl eq_refl Hprompt ltac:(simpl; lia) Hload).
Defined.

Lemma login_silent_without_password_witness :
  let w := start alice [inr "text"; inr EmptyString] [] in
  login ["login"; "alice"] w =
    (None, (promptSecure "#msg-txt" "Please enter your password" w).2).
Proof.
  intros w.
  apply (login_silent_without_password "login" "alice" [] w EmptyString None).
  - reflexivity.
  - reflexivity.
  - compute_done.
  - by right.
Defined.

Lemma register_saves_account_witness :
  let w := start alice
             [inr "b@x.com"; inr "text"; inr "p1"; inr "text"; inr "p1"] [] in
  let w1 := (prompt "Enter your email address" w).2 in
  let w2 := (promptSecure "#msg-txt" "Enter a good password" w1).2 in
  let w3 := (promptSecure "#msg-txt" "Re-enter your password" w2).2 in
  let st := <[path "bob" := ("p1", User "bob" "b@x.com")]> alice in
  let w4 := World (inbox w3) (wfail w3) (trace w3 ++ [Save "bob" "p1" None])
              (User "bob" "b@x.com") st in
  register ["register"; "bob"] w =
    (None,
     wrote (appendMsg_packet "#msg-list"
              "User account created (don't forget your password!)") w4).
Proof.
  intros w w1 w2 w3 st w4.
  assert (prompt "Enter your email address" w = (("b@x.com", None), w1)) as H1
    by compute_done.
  assert (promptSecure "#msg-txt" "Enter a good password" w1 = (("p1", None), w2))
    as H2 by compute_done.
  assert (promptSecure "#msg-txt" "Re-enter your password" w2 = (("p1", None), w3))
    as H3 by compute_done.
  assert (user_save (User "bob" "b@x.com") "bob" "p1" (store w3)
          = (User "bob" "b@x.com", st, None)) as Hsave by compute_done.
  exact (register_saves_account "register" "bob" [] w "b@x.com" w1 "p1" w2 w3
           (User "bob" "b@x.com") st None eq_refl H1 eq_refl H2 H3 Hsave).
Defined.

Lemma promptSecure_without_attribute_witness :
  let w := start alice [inr "text"] [Some (TransportError "broken pipe")] in
  promptSecure "#msg-txt" "Please enter your password" w =
    ((EmptyString, Some (TransportError "broken pipe")),
     wrote (getAttribute_packet "#msg-txt" "type") w).
Proof.
  intros w.
  destruct (promptSecure_without_attribute "#msg-txt"
              "Please enter your password" w) as [Hfail _].
  by apply Hfail.
Defined.

Lemma query_error_is_write_error_witness :
  let w := start alice [] [] in
  (getAttribute "#msg-txt" "type" w).1 = (EmptyString, None) ∧
  (getProperty "#msg-txt" "value" w).1 = (EmptyString, None).
Proof.
  intros w. split.
  - destruct (query_error_is_write_error "#msg-txt" "type" w)
      as (_ & _ & _ & Hclosed).
    by apply Hclosed.
  - destruct (query_error_is_write_error "#msg-txt" "value" w)
      as (_ & _ & _ & Hclosed).
    by apply Hclosed.
Defined.

Lemma wsHandler_serves_greeted_origin_only_witness :
  let w := start alice [inr "{}"] [Some (TransportError "broken pipe")] in
  ∃ w', wsHandler "localhost" ":8080" "https://localhost:8080" (Some true) w
          = Some w' ∧
        inbox w' = inbox w.
Proof.
  intros w.
  destruct (wsHandler_serves_greeted_origin_only "localhost" ":8080"
              "https://localhost:8080" (Some true) w) as (w' & Hw & _ & Hfail).
  exists w'. split; [done|]. by apply Hfail.
Defined.
